(** * psd_gui: binary event decoder, PSD metric, threshold filter, spectrum

    A shallow embedding of [src/psd_gui.py].  The file on disk is a list of
    bytes, a decoded record is the tuple of 21 integers that
    [struct.unpack] returns, the intermediate CSV file is a table of text
    fields, numpy's [float64] is Rocq's primitive binary64 [float], and the
    widget object [PSDApp] is a record threaded through [load_file] and
    [update_plots]. *)

From Stdlib Require Import String Ascii.
From Stdlib.Strings Require Import Byte.
From Stdlib Require Import ZArith List Lia Bool Arith.
From Stdlib Require Import DecimalString DecimalPos DecimalZ.
From Stdlib Require Import Uint63 Floats.
From Equations Require Import Equations.
Import ListNotations.

(** ** Python results: a value or a raised exception *)

Inductive py_exn : Type :=
| StructError   (* struct.error *)
| TypeError
| ValueError
| KeyError
| FormatError.  (* named by the specification only; nothing raises it *)

Inductive py_result (A : Type) : Type :=
| Returns (a : A)
| Raises (e : py_exn).
Arguments Returns {A} a.
Arguments Raises {A} e.

Definition bind {A B} (m : py_result A) (k : A -> py_result B) : py_result B :=
  match m with
  | Returns a => k a
  | Raises e => Raises e
  end.

Declare Scope py_scope.
Delimit Scope py_scope with py.
Notation "x <- m ;; k" := (bind m (fun x => k))
  (at level 61, m at next level, right associativity) : py_scope.
Notation "' pat <- m ;; k" := (bind m (fun x => match x with pat => k end))
  (at level 61, pat pattern, m at next level, right associativity) : py_scope.

(** ** The [struct] module, for little-endian standard-size formats *)

Module Struct.

(** Format characters with their standard sizes. *)
Inductive code : Type := c_b | c_B | c_h | c_H | c_i | c_I | c_l | c_L | c_q | c_Q.

Definition size (c : code) : nat :=
  match c with
  | c_b | c_B => 1
  | c_h | c_H => 2
  | c_i | c_I | c_l | c_L => 4
  | c_q | c_Q => 8
  end.

Definition signed (c : code) : bool :=
  match c with
  | c_b | c_h | c_i | c_l | c_q => true
  | c_B | c_H | c_I | c_L | c_Q => false
  end.

Definition code_of_ascii (a : ascii) : option code :=
  match a with
  | "b" => Some c_b | "B" => Some c_B
  | "h" => Some c_h | "H" => Some c_H
  | "i" => Some c_i | "I" => Some c_I
  | "l" => Some c_l | "L" => Some c_L
  | "q" => Some c_q | "Q" => Some c_Q
  | _ => None
  end%char.

Definition digit_of_ascii (a : ascii) : option nat :=
  let n := nat_of_ascii a in
  if (48 <=? n) && (n <=? 57) then Some (n - 48) else None.

Definition is_space (a : ascii) : bool :=
  let n := nat_of_ascii a in
  (n =? 32) || ((9 <=? n) && (n <=? 13)).

(** The body of a format string: codes with optional repeat counts,
    white space between items ignored.  [count] is the repeat count read
    so far for the next code.  [None] is [struct.error]. *)
Fixpoint parse_codes (s : string) (count : option nat) : option (list code) :=
  match s with
  | EmptyString => match count with None => Some [] | Some _ => None end
  | String a s' =>
      match digit_of_ascii a with
      | Some d =>
          parse_codes s' (Some (10 * match count with Some n => n | None => 0 end + d))
      | None =>
          match code_of_ascii a with
          | Some c =>
              option_map
                (app (repeat c match count with Some n => n | None => 1 end))
                (parse_codes s' None)
          | None =>
              if is_space a
              then match count with None => parse_codes s' None | Some _ => None end
              else None
          end
      end
  end.

(** Only the ["<"] byte order (little-endian, standard sizes, no padding)
    is modelled. *)
Definition parse_format (fmt : string) : option (list code) :=
  match fmt with
  | String "<" body => parse_codes body None
  | _ => None
  end.

Definition codes_size (cs : list code) : nat := list_sum (map size cs).

Definition calcsize (fmt : string) : py_result nat :=
  match parse_format fmt with
  | Some cs => Returns (codes_size cs)
  | None => Raises StructError
  end.

(** Little-endian value of a byte string. *)
Definition le_uint (bs : list byte) : Z :=
  fold_right (fun b acc => Z.of_N (Byte.to_N b) + 256 * acc)%Z 0%Z bs.

(** Two's complement reading of an [w]-bit unsigned value. *)
Definition to_signed (w : Z) (u : Z) : Z :=
  if (u <? 2 ^ (w - 1))%Z then u else (u - 2 ^ w)%Z.

Definition decode (c : code) (bs : list byte) : Z :=
  if signed c then to_signed (8 * Z.of_nat (size c)) (le_uint bs) else le_uint bs.

Fixpoint unpack_codes (cs : list code) (buf : list byte) : list Z :=
  match cs with
  | [] => []
  | c :: cs' => decode c (firstn (size c) buf) :: unpack_codes cs' (skipn (size c) buf)
  end.

(** [struct.unpack(fmt, buf)]: the buffer must have exactly the size of
    the format. *)
Definition unpack (fmt : string) (buf : list byte) : py_result (list Z) :=
  match parse_format fmt with
  | Some cs =>
      if length buf =? codes_size cs then Returns (unpack_codes cs buf)
      else Raises StructError
  | None => Raises StructError
  end.

End Struct.

(** ** [parse_bin_file] *)

(** A decoded record: the tuple of [struct.unpack]. *)
Definition record : Type := list Z.

Definition record_format : string := "<4B I H Q h h h h i i h I I H 4B".

Definition record_codes : list Struct.code :=
  Eval vm_compute in
    match Struct.parse_format record_format with Some cs => cs | None => [] end.

Definition record_size : nat :=
  Eval vm_compute in
    match Struct.calcsize record_format with Returns n => n | Raises _ => 0 end.

(** [f.read(n)] on a file whose unread part is [f]: the bytes read and the
    unread part afterwards. *)
Definition read (n : nat) (f : list byte) : list byte * list byte :=
  (firstn n f, skipn n f).

(** Case analysis that keeps the equation, for the loop test below. *)
Definition inspect {A : Type} (x : A) : {y : A | x = y} := exist _ x eq_refl.

(** The [while True] loop of [parse_bin_file]; [f] is the unread part of the
    file and [records] the list built so far. *)
Equations? read_loop (f : list byte) (records : list record)
  : py_result (list record) by wf (length f) lt :=
  read_loop f records with inspect (length (fst (read record_size f)) <? record_size) := {
    | exist _ true _ => Returns records
    | exist _ false Hlen with Struct.unpack record_format (fst (read record_size f)) := {
        | Raises e => Raises e
        | Returns values => read_loop (snd (read record_size f)) (records ++ [values]) } }.
Proof.
  assert (H : (length (firstn record_size f) <? record_size) = false) by exact Hlen.
  clear Hlen. change (length (skipn record_size f) < length f).
  apply Nat.ltb_ge in H. rewrite length_firstn in H. rewrite length_skipn.
  unfold record_size in *. lia.
Qed.

Definition parse_bin_file (file : list byte) : py_result (list record) :=
  let '(_, f) := read 8 file in
  read_loop f [].

(** ** The CSV file between [save_to_csv] and [read_qlong_qshort] *)

(** [str(n)] and [int(s)] on decimal literals: an optional ["-"] and at
    least one digit, which is all [csv.writer] emits for an integer.
    ([int] also accepts a ["+"], surrounding white space and ["_"] between
    digits; such text is reported here as [ValueError].) *)
Definition py_str (z : Z) : string := NilZero.string_of_int (Z.to_int z).

Definition py_int (s : string) : option Z :=
  option_map Z.of_int (NilZero.int_of_string s).

Module Csv.

(** The text layer (separators, quoting, line ends) is left out: a file is
    its rows, and a row its fields. *)
Definition row : Type := list string.
Definition table : Type := list row.

(** [csv.writer.writerow] of a tuple of integers. *)
Definition writerow (values : list Z) : row := map py_str values.

(** One row of a [DictReader]: field names zipped with the fields, short
    rows padded with [restval = None].  (Surplus fields go under the key
    [None], which no lookup by name sees.) *)
Definition dict : Type := list (string * option string).

Definition make_dict (fieldnames : list string) (r : row) : dict :=
  combine fieldnames
          (map Some r ++ repeat None (length fieldnames - length r)).

(** [d[key]]: as in [dict(zip(...))], the last binding of a key wins;
    [None] is [KeyError]. *)
Definition get (d : dict) (key : string) : option (option string) :=
  fold_left (fun found kv => if String.eqb (fst kv) key then Some (snd kv) else found)
            d None.

(** The rows a [DictReader] yields: the first row of the file names the
    fields, and empty rows after it are skipped. *)
Definition dict_rows (f : table) : list dict :=
  match f with
  | [] => []
  | fieldnames :: rows =>
      map (make_dict fieldnames)
          (filter (fun r => match r with [] => false | _ => true end) rows)
  end.

End Csv.

Definition header : list string :=
  [ "title1_4"; "title2_4"; "title3_4"; "title4_4";
    "deviceId"; "channelId"; "timestamp";
    "cfd_y1"; "cfd_y2"; "heigth"; "baseline";
    "qLong"; "qShort"; "psdValue";
    "eventCounter"; "eventCounterPSD"; "decimationFactor";
    "postfix1"; "postfix2"; "postfix3"; "postfix4" ]%string.

(** The file written by [save_to_csv]; its name stands for its content. *)
Definition save_to_csv (records : list record) : Csv.table :=
  header :: map Csv.writerow records.

(** [row[key]] and [int(...)] with the exceptions they raise. *)
Definition getitem (d : Csv.dict) (key : string) : py_result (option string) :=
  match Csv.get d key with
  | Some v => Returns v
  | None => Raises KeyError
  end.

Definition int_ (v : option string) : py_result Z :=
  match v with
  | None => Raises TypeError
  | Some s => match py_int s with Some z => Returns z | None => Raises ValueError end
  end.

(** The [try] block of [read_qlong_qshort] for one row. *)
Definition read_row (d : Csv.dict) (qlong qshort : list Z)
  : py_result (list Z * list Z) :=
  (v <- getitem d "qLong" ;;
   ql <- int_ v ;;
   w <- getitem d "qShort" ;;
   qs <- int_ w ;;
   if (ql >? 0)%Z && (qs >=? 0)%Z
   then Returns (qlong ++ [ql], qshort ++ [qs])
   else Returns (qlong, qshort))%py.

(** The [for] loop with its [except (ValueError, KeyError): continue]. *)
Fixpoint read_rows (ds : list Csv.dict) (qlong qshort : list Z)
  : py_result (list Z * list Z) :=
  match ds with
  | [] => Returns (qlong, qshort)
  | d :: ds' =>
      match read_row d qlong qshort with
      | Returns (qlong', qshort') => read_rows ds' qlong' qshort'
      | Raises ValueError | Raises KeyError => read_rows ds' qlong qshort
      | Raises e => Raises e
      end
  end.

Definition read_qlong_qshort (csv_file : Csv.table) : py_result (list Z * list Z) :=
  read_rows (Csv.dict_rows csv_file) [] [].

(** ** numpy on [float64] *)

Module Np.

Local Open Scope float_scope.

(** An [int64] element as [float64] (round to nearest even), for
    [|z| < 2^63]. *)
Definition of_int (z : Z) : float :=
  if (z <? 0)%Z then - of_uint63 (Uint63.of_Z (- z)) else of_uint63 (Uint63.of_Z z).

Fixpoint map2 {A B C} (f : A -> B -> C) (a : list A) (b : list B) : list C :=
  match a, b with
  | x :: a', y :: b' => f x y :: map2 f a' b'
  | _, _ => []
  end.

(** [a / b] on two integer arrays of one length: true division. *)
Definition true_divide (a b : list Z) : list float :=
  map2 (fun x y => of_int x / of_int y) a b.

(** [c - a] for a scalar [c]. *)
Definition rsub (c : float) (a : list float) : list float :=
  map (fun x => c - x) a.

Definition isfinite (a : list float) : list bool := map is_finite a.

(** [a > t] for a scalar [t]. *)
Definition greater (a : list float) (t : float) : list bool :=
  map (fun x => t <? x) a.

(** [a[mask]] for a boolean mask of the length of [a]. *)
Fixpoint select {A} (mask : list bool) (a : list A) : list A :=
  match mask, a with
  | m :: mask', x :: a' => if m then x :: select mask' a' else select mask' a'
  | _, _ => []
  end.

(** [np.linspace(start, stop, num)] with the default [endpoint=True]. *)
Definition linspace (start stop : float) (num : nat) : list float :=
  let div := of_int (Z.of_nat (num - 1)) in
  let delta := stop - start in
  let y := map (fun i => of_int (Z.of_nat i)) (seq 0 num) in
  let y :=
    if (0 <? num - 1)%nat then
      let step := delta / div in
      if step =? 0 then map (fun v => v / div * delta) y
      else map (fun v => v * step) y
    else map (fun v => v * delta) y in
  let y := map (fun v => v + start) y in
  if (1 <? num)%nat then removelast y ++ [stop] else y.

Definition count (p : float -> bool) (a : list float) : Z :=
  Z.of_nat (length (filter p a)).

(** [sa.searchsorted(v, 'left')] and [sa.searchsorted(v, 'right')] on the
    sorted data: how many elements are below [v], resp. not above it. *)
Definition searchsorted_left (a : list float) (v : float) : Z :=
  count (fun x => x <? v) a.
Definition searchsorted_right (a : list float) (v : float) : Z :=
  count (fun x => x <=? v) a.

(** Left-inclusive search for all edges but the last, right-inclusive for
    the last. *)
Definition search_sorted_inclusive (a : list float) (v : list float) : list Z :=
  map (searchsorted_left a) (removelast v)
  ++ map (searchsorted_right a) (skipn (length v - 1) v).

Fixpoint diff (c : list Z) : list Z :=
  match c with
  | x :: (y :: _) as c' => (y - x)%Z :: diff c'
  | _ => []
  end.

Fixpoint monotonic (edges : list float) : bool :=
  match edges with
  | x :: (y :: _) as edges' => negb (y <? x) && monotonic edges'
  | _ => true
  end.

(** [np.histogram(a, bins=bin_edges)[0]] for an array of edges: the
    cumulative counts at the edges, differenced. *)
Definition histogram (a : list float) (bin_edges : list float) : py_result (list Z) :=
  if monotonic bin_edges
  then Returns (diff (search_sorted_inclusive a bin_edges))
  else Raises ValueError.

End Np.

(** ** The application object *)

Record PSDApp : Type := mkPSDApp {
  csv_file : option Csv.table;
  qlong : list Z;
  qshort : list Z;
  filter_toggle : bool;                      (* filter_toggle.isChecked() *)
  threshold_input : float;                   (* threshold_input.value() *)
  last_spectrum_data : list float * list Z;  (* (bin_centers, counts) *)
  last_psd_data : list float
}.

(** [__init__]; the threshold is the binary64 nearest to 0.1474. *)
Definition init : PSDApp :=
  {| csv_file := None;
     qlong := [];
     qshort := [];
     filter_toggle := true;
     threshold_input := 0x1.2de00d1b71759p-3%float;
     last_spectrum_data := ([], []);
     last_psd_data := [] |}.

(** Lines 135-138: the PSD of every event, and the finite ones kept. *)
Definition compute_psd (qlong qshort : list Z) : list float :=
  Np.rsub 1%float (Np.true_divide qshort qlong).

Definition valid_stage (qlong qshort : list Z) : list float * list Z :=
  let psd := compute_psd qlong qshort in
  let mask_valid := Np.isfinite psd in
  (Np.select mask_valid psd, Np.select mask_valid qlong).

(** Lines 140-147: the threshold filter on both arrays. *)
Definition threshold_stage (checked : bool) (threshold : float)
  (psd : list float) (qlong_valid : list Z) : list float * list Z :=
  if checked then
    let mask := Np.greater psd threshold in
    (Np.select mask psd, Np.select mask qlong_valid)
  else (psd, qlong_valid).

Definition bin_edges : list float :=
  Np.linspace 0%float 100000%float 4097.

Definition bin_centers (edges : list float) : list float :=
  Np.map2 (fun lo hi => ((lo + hi) / 2)%float) (removelast edges) (tl edges).

(** Lines 151-163: the spectrum table. *)
Definition spectrum_stage (qlong_filtered : list Z) : py_result (list float * list Z) :=
  if (0 <? length qlong_filtered)%nat then
    (counts <- Np.histogram (map Np.of_int qlong_filtered) bin_edges ;;
     Returns (bin_centers bin_edges, counts))%py
  else Returns ([], []).

(** Lines 169-177: the PSD table, one value per event. *)
Definition psd_stage (psd_filtered : list float) : list float :=
  if (0 <? length psd_filtered)%nat then psd_filtered else [].

Definition update_plots (self : PSDApp) : py_result PSDApp :=
  if (length (qlong self) =? 0)%nat then Returns self
  else
    let '(psd, qlong_valid) := valid_stage (qlong self) (qshort self) in
    let '(psd_filtered, qlong_filtered) :=
      threshold_stage (filter_toggle self) (threshold_input self) psd qlong_valid in
    (spectrum <- spectrum_stage qlong_filtered ;;
     Returns {| csv_file := csv_file self;
                qlong := qlong self;
                qshort := qshort self;
                filter_toggle := filter_toggle self;
                threshold_input := threshold_input self;
                last_spectrum_data := spectrum;
                last_psd_data := psd_stage psd_filtered |})%py.

(** [load_file] once a path was chosen in the dialog; [file] is the content
    of the chosen file. *)
Definition load_file (self : PSDApp) (file : list byte) : py_result PSDApp :=
  (records <- parse_bin_file file ;;
   let csv := save_to_csv records in
   ' (ql, qs) <- read_qlong_qshort csv ;;
   update_plots {| csv_file := Some csv;
                   qlong := ql;
                   qshort := qs;
                   filter_toggle := filter_toggle self;
                   threshold_input := threshold_input self;
                   last_spectrum_data := last_spectrum_data self;
                   last_psd_data := last_psd_data self |})%py.

(** ** The save handlers *)

(** A cell handed to [csv.writer.writerow], before it becomes text. *)
Inductive cell : Type :=
| Str (s : string)
| Num (x : float)    (* a numpy.float64 *)
| Cnt (n : Z).       (* a numpy.int64 *)

(** What a handler did: returned without writing, wrote these rows to the
    chosen file, or raised [AttributeError]. *)
Inductive saved : Type :=
| NotSaved
| Saved (rows : list (list cell))
| AttributeError.

(** [a.any()] on an array: some element is truthy, that is, not zero. *)
Definition ndarray_any (a : list float) : bool :=
  existsb (fun x => negb (x =? 0)%float) a.

(** [save_spectrum_data]; [file_path] is what the save dialog returned, the
    empty string when it was cancelled.  The first component of
    [last_spectrum_data] is either the Python list [[]] written by [__init__]
    and by the no-data branch of [update_plots], which has no method [any],
    or the array of 4096 bin centers; the empty list below is the former. *)
Definition save_spectrum_data (self : PSDApp) (file_path : string) : saved :=
  match fst (last_spectrum_data self) with
  | [] => AttributeError
  | _ :: _ =>
      if negb (ndarray_any (fst (last_spectrum_data self))) then NotSaved
      else if String.eqb file_path "" then NotSaved
      else Saved ([Str "BinCenter"; Str "Count"]
                  :: map (fun xy => [Num (fst xy); Cnt (snd xy)])
                         (combine (fst (last_spectrum_data self))
                                  (snd (last_spectrum_data self))))
  end.

(** [save_psd_data]: [len] works on the list and on the array alike. *)
Definition save_psd_data (self : PSDApp) (file_path : string) : saved :=
  if (length (last_psd_data self) =? 0)%nat then NotSaved
  else if String.eqb file_path "" then NotSaved
  else Saved ([Str "PSD"] :: map (fun v => [Num v]) (last_psd_data self)).

(** ** Vocabulary of the statements *)

(** Fields 11 and 12 of a record tuple, the columns named [qLong] and
    [qShort] by [header]. *)
Definition qLong_of (r : record) : Z := nth 11 r 0%Z.
Definition qShort_of (r : record) : Z := nth 12 r 0%Z.

(** The test of line 53. *)
Definition positive_charges (r : record) : bool :=
  (qLong_of r >? 0)%Z && (qShort_of r >=? 0)%Z.

(** One element of [1 - qshort / qlong]. *)
Definition psd_value (ql qs : Z) : float :=
  (1 - Np.of_int qs / Np.of_int ql)%float.

Definition psd_of (r : record) : float := psd_value (qLong_of r) (qShort_of r).

(** A record whose event reaches the threshold filter. *)
Definition participates (r : record) : bool :=
  positive_charges r && is_finite (psd_of r).

(** The events after the threshold filter, as (qLong, psd) pairs. *)
Definition events (stage : list float * list Z) : list (Z * float) :=
  combine (snd stage) (fst stage).

(** The state [load_file] hands to [update_plots]. *)
Definition loaded (self : PSDApp) (records : list record) : PSDApp :=
  {| csv_file := Some (save_to_csv records);
     qlong := map qLong_of (filter positive_charges records);
     qshort := map qShort_of (filter positive_charges records);
     filter_toggle := filter_toggle self;
     threshold_input := threshold_input self;
     last_spectrum_data := last_spectrum_data self;
     last_psd_data := last_psd_data self |}.

(** The same application with other widget settings. *)
Definition with_filter (self : PSDApp) (checked : bool) (threshold : float) : PSDApp :=
  {| csv_file := csv_file self;
     qlong := qlong self;
     qshort := qshort self;
     filter_toggle := checked;
     threshold_input := threshold;
     last_spectrum_data := last_spectrum_data self;
     last_psd_data := last_psd_data self |}.

(** What [update_plots] computes when there is data: the pair of filtered
    arrays, the spectrum table and the refreshed application. *)
Definition filtered (self : PSDApp) : list float * list Z :=
  let '(psd, qlong_valid) := valid_stage (qlong self) (qshort self) in
  threshold_stage (filter_toggle self) (threshold_input self) psd qlong_valid.

Definition spectrum_table (qlong_filtered : list Z) : list float * list Z :=
  if (0 <? length qlong_filtered)%nat then
    (bin_centers bin_edges,
     Np.diff (Np.search_sorted_inclusive (map Np.of_int qlong_filtered) bin_edges))
  else ([], []).

Definition recomputed (self : PSDApp) : PSDApp :=
  {| csv_file := csv_file self;
     qlong := qlong self;
     qshort := qshort self;
     filter_toggle := filter_toggle self;
     threshold_input := threshold_input self;
     last_spectrum_data := spectrum_table (snd (filtered self));
     last_psd_data := psd_stage (fst (filtered self)) |}.

(** Membership of a value in the bin [lo, hi), or [lo, hi] when [closed]. *)
Definition in_bin (closed : bool) (lo hi x : float) : bool :=
  ((lo <=? x) && (if closed then x <=? hi else x <? hi))%float.

Definition Zsum (l : list Z) : Z := fold_right Z.add 0%Z l.

Definition no_nan (edges : list float) : bool :=
  forallb (fun e => negb (is_nan e)) edges.

(** The sign of a binary64 value in the specification format; [S754_nan]
    has none. *)
Definition sign_is (s : bool) (x : spec_float) : Prop :=
  match x with
  | S754_zero s' | S754_infinity s' | S754_finite s' _ _ => s' = s
  | S754_nan => False
  end.

Definition SF_one : spec_float := S754_finite false 4503599627370496 (-52).

(** The little-endian encoding that [Struct.unpack_codes] reads back, used
    to write input files down. *)
Definition byte_of_Z (z : Z) : byte :=
  match Byte.of_N (Z.to_N (z mod 256)) with Some b => b | None => x00 end.

Fixpoint le_bytes (n : nat) (z : Z) : list byte :=
  match n with
  | O => []
  | S n' => byte_of_Z z :: le_bytes n' (z / 256)
  end.

Fixpoint pack_codes (cs : list Struct.code) (values : list Z) : list byte :=
  match cs, values with
  | c :: cs', v :: values' => le_bytes (Struct.size c) v ++ pack_codes cs' values'
  | _, _ => []
  end.

(** The record of the end-to-end scenario and two input files. *)
Definition sample_record : record :=
  [1; 2; 3; 4; 7; 1; 123456789; 0; 0; 0; 0; 1000; 300; 0; 1; 1; 1; 0; 0; 0; 0]%Z.

Definition sample_file : list byte :=
  repeat x00 8 ++ pack_codes record_codes sample_record.

Definition empty_file : list byte := repeat x00 8.

(** The range of a format code: [code_min c <= v < code_max c]. *)
Definition code_min (c : Struct.code) : Z :=
  if Struct.signed c then (- 2 ^ (8 * Z.of_nat (Struct.size c) - 1))%Z else 0%Z.

Definition code_max (c : Struct.code) : Z :=
  if Struct.signed c then (2 ^ (8 * Z.of_nat (Struct.size c) - 1))%Z
  else (2 ^ (8 * Z.of_nat (Struct.size c)))%Z.

Definition in_range (c : Struct.code) (v : Z) : Prop :=
  (code_min c <= v < code_max c)%Z.

(** A spec float that is finite with magnitude between [2^(lo-1)] and
    [2^hi]. *)
Definition finite_within (lo hi : Z) (x : spec_float) : Prop :=
  exists m e, x = S754_finite false m e /\ (lo <= Z.pos (digits2_pos m) + e <= hi)%Z.

(** Zero or a finite number below [2^hi]. *)
Definition zero_or_below (hi : Z) (x : spec_float) : Prop :=
  x = S754_zero false
  \/ exists m e, x = S754_finite false m e /\ (Z.pos (digits2_pos m) + e <= hi)%Z.

(** The 4097 edges of the spectrum, evaluated once. *)
Definition bin_edges_nf : list float := Eval vm_compute in bin_edges.

(** The application after [update_plots] on the records [sample_record]
    decoded into a fresh one. *)
Definition sample_recomputed : PSDApp :=
  recomputed (loaded init [sample_record]).

(** * Properties *)

(** ** The decoder *)

Lemma parse_record_format : Struct.parse_format record_format = Some record_codes.
Proof. reflexivity. Qed.

Lemma calcsize_record_format : Struct.calcsize record_format = Returns record_size.
Proof. reflexivity. Qed.

(** A chunk of exactly [record_size] bytes always unpacks. *)
Lemma unpack_record (chunk : list byte) :
  length chunk = record_size ->
  Struct.unpack record_format chunk = Returns (Struct.unpack_codes record_codes chunk).
Proof.
  intros Hlen. unfold Struct.unpack. rewrite parse_record_format.
  replace (Struct.codes_size record_codes) with record_size by reflexivity.
  rewrite Hlen, Nat.eqb_refl. reflexivity.
Qed.

Lemma unpack_codes_length (cs : list Struct.code) (buf : list byte) :
  length (Struct.unpack_codes cs buf) = length cs.
Proof.
  revert buf. induction cs as [|c cs IH]; intros buf; simpl; [reflexivity|].
  now rewrite IH.
Qed.

(** One turn of the loop. *)
Lemma read_loop_step (f : list byte) (records : list record) :
  read_loop f records =
  if length (fst (read record_size f)) <? record_size then Returns records
  else match Struct.unpack record_format (fst (read record_size f)) with
       | Returns values => read_loop (snd (read record_size f)) (records ++ [values])
       | Raises e => Raises e
       end.
Proof.
  rewrite read_loop_equation_1.
  destruct (inspect (length (fst (read record_size f)) <? record_size)) as [b Hb].
  match goal with |- _ = (if _ then ?A else ?B) =>
    assert (E : (if length (fst (read record_size f)) <? record_size then A else B)
                = if b then A else B) by (rewrite Hb; reflexivity);
    rewrite E; clear E
  end.
  destruct b.
  - reflexivity.
  - simp read_loop.
    destruct (Struct.unpack record_format (fst (read record_size f))); reflexivity.
Qed.

Lemma read_loop_short (f : list byte) (records : list record) :
  length f < record_size -> read_loop f records = Returns records.
Proof.
  intros Hlen. rewrite read_loop_step. unfold read; cbn [fst].
  rewrite length_firstn.
  replace (Nat.min record_size (length f) <? record_size) with true; [reflexivity|].
  symmetry. apply Nat.ltb_lt. lia.
Qed.

Lemma read_loop_chunk (chunk rest : list byte) (records : list record) :
  length chunk = record_size ->
  read_loop (chunk ++ rest) records =
  read_loop rest (records ++ [Struct.unpack_codes record_codes chunk]).
Proof.
  intros Hlen. rewrite read_loop_step. unfold read; cbn [fst snd].
  rewrite <- Hlen.
  rewrite firstn_app, Nat.sub_diag, firstn_all, firstn_O, app_nil_r.
  rewrite skipn_app, Nat.sub_diag, skipn_all, skipn_O. cbn [app].
  rewrite Nat.ltb_irrefl, unpack_record by exact Hlen.
  reflexivity.
Qed.

Lemma read_loop_chunks (chunks : list (list byte)) (tail : list byte)
  (records : list record) :
  Forall (fun c => length c = record_size) chunks ->
  length tail < record_size ->
  read_loop (concat chunks ++ tail) records =
  Returns (records ++ map (Struct.unpack_codes record_codes) chunks).
Proof.
  intros Hchunks Htail. revert records.
  induction Hchunks as [|c chunks Hc _ IH]; intros records; cbn [concat map app].
  - rewrite app_nil_r. now apply read_loop_short.
  - rewrite <- app_assoc, read_loop_chunk by exact Hc.
    rewrite IH, <- app_assoc. reflexivity.
Qed.

Lemma parse_bin_file_chunks (preamble : list byte) (chunks : list (list byte))
  (tail : list byte) :
  length preamble = 8 ->
  Forall (fun c => length c = record_size) chunks ->
  length tail < record_size ->
  parse_bin_file (preamble ++ concat chunks ++ tail) =
  Returns (map (Struct.unpack_codes record_codes) chunks).
Proof.
  intros Hpre Hchunks Htail. unfold parse_bin_file, read.
  rewrite <- Hpre, skipn_app, Nat.sub_diag, skipn_all, skipn_O. cbn [app].
  now rewrite read_loop_chunks.
Qed.

(** C1: an 8-byte preamble, N complete 50-byte records and K < 50 trailing
    bytes decode to exactly N records, the i-th being the i-th chunk
    unpacked; the trailing bytes are dropped, so the result is the same for
    every such tail. *)
Theorem decode_complete_records (preamble : list byte) (chunks : list (list byte))
  (tail : list byte) :
  length preamble = 8 ->
  Forall (fun c => length c = 50) chunks ->
  length tail < 50 ->
  exists records,
    parse_bin_file (preamble ++ concat chunks ++ tail) = Returns records
    /\ length records = length chunks
    /\ Forall2 (fun c r => Struct.unpack record_format c = Returns r) chunks records
    /\ parse_bin_file (preamble ++ concat chunks) = Returns records.
Proof.
  intros Hpre Hchunks Htail.
  exists (map (Struct.unpack_codes record_codes) chunks).
  split; [now apply parse_bin_file_chunks|].
  split; [apply length_map|].
  split.
  - induction Hchunks as [|c chunks Hc _ IH]; cbn [map]; constructor.
    + now apply unpack_record.
    + exact IH.
  - rewrite <- (app_nil_r (concat chunks)).
    apply parse_bin_file_chunks; [exact Hpre|exact Hchunks|unfold record_size; cbn; lia].
Qed.

(** ** The CSV round trip *)

Lemma py_int_str (z : Z) : py_int (py_str z) = Some z.
Proof.
  unfold py_int, py_str. rewrite NilZero.isi.
  - cbn [option_map]. now rewrite DecimalZ.of_to.
  - destruct z; cbn; try discriminate.
    intros [= H]. now apply Unsigned.to_uint_nonnil in H.
  - destruct z; cbn; try discriminate.
    intros [= H]. now apply Unsigned.to_uint_nonnil in H.
Qed.

Ltac list_of_length r H :=
  repeat (let x := fresh "v" in destruct r as [|x r]; [discriminate H|]);
  destruct r; [|discriminate H]; clear H.

Lemma get_qLong (r : record) :
  length r = 21 ->
  Csv.get (Csv.make_dict header (Csv.writerow r)) "qLong"
  = Some (Some (py_str (qLong_of r))).
Proof. intros H. list_of_length r H. reflexivity. Qed.

Lemma get_qShort (r : record) :
  length r = 21 ->
  Csv.get (Csv.make_dict header (Csv.writerow r)) "qShort"
  = Some (Some (py_str (qShort_of r))).
Proof. intros H. list_of_length r H. reflexivity. Qed.

Lemma read_row_written (r : record) (ql qs : list Z) :
  length r = 21 ->
  read_row (Csv.make_dict header (Csv.writerow r)) ql qs =
  Returns (if positive_charges r
           then (ql ++ [qLong_of r], qs ++ [qShort_of r]) else (ql, qs)).
Proof.
  intros H. unfold read_row, getitem, int_, bind.
  rewrite (get_qLong r H), (get_qShort r H), !py_int_str.
  unfold positive_charges. now destruct (_ && _).
Qed.

Lemma read_rows_written (records : list record) (ql qs : list Z) :
  Forall (fun r => length r = 21) records ->
  read_rows (map (Csv.make_dict header) (map Csv.writerow records)) ql qs =
  Returns (ql ++ map qLong_of (filter positive_charges records),
           qs ++ map qShort_of (filter positive_charges records)).
Proof.
  intros Hrec. revert ql qs.
  induction Hrec as [|r records Hr _ IH]; intros ql qs; cbn [map read_rows filter].
  - now rewrite !app_nil_r.
  - rewrite (read_row_written r ql qs Hr).
    destruct (positive_charges r); rewrite IH; cbn [map]; [|reflexivity].
    now rewrite <- !app_assoc.
Qed.

(** What [read_qlong_qshort] reads back from the file [save_to_csv] wrote:
    the two columns of the records with [qLong > 0] and [qShort >= 0]. *)
Lemma read_saved_csv (records : list record) :
  Forall (fun r => length r = 21) records ->
  read_qlong_qshort (save_to_csv records) =
  Returns (map qLong_of (filter positive_charges records),
           map qShort_of (filter positive_charges records)).
Proof.
  intros Hrec. unfold read_qlong_qshort, save_to_csv, Csv.dict_rows.
  replace (filter _ (map Csv.writerow records)) with (map Csv.writerow records).
  - now rewrite read_rows_written.
  - symmetry. apply forallb_filter_id. apply forallb_forall.
    intros row Hin. apply in_map_iff in Hin as [r [<- Hin]].
    rewrite Forall_forall in Hrec. specialize (Hrec r Hin).
    now destruct r.
Qed.

(** ** Binary64 arithmetic: rounding and order *)

Local Open Scope Z_scope.

Lemma fexp_eq e : fexp prec emax e = Z.max (e - 53) (-1074).
Proof. reflexivity. Qed.

Lemma digits2_pos_bounds p :
  2 ^ (Z.pos (digits2_pos p) - 1) <= Z.pos p < 2 ^ Z.pos (digits2_pos p).
Proof.
  induction p as [p IH|p IH|]; cbn [digits2_pos].
  - rewrite Pos2Z.inj_succ. replace (Z.succ (Z.pos (digits2_pos p)) - 1) with (Z.succ (Z.pos (digits2_pos p) - 1)) by lia.
    rewrite !Z.pow_succ_r by lia. lia.
  - rewrite Pos2Z.inj_succ. replace (Z.succ (Z.pos (digits2_pos p)) - 1) with (Z.succ (Z.pos (digits2_pos p) - 1)) by lia.
    rewrite !Z.pow_succ_r by lia. lia.
  - cbn. lia.
Qed.

Lemma Zdigits2_nonneg m : 0 <= Zdigits2 m.
Proof. destruct m; cbn; lia. Qed.

Lemma Zdigits2_upper m : 0 <= m -> m < 2 ^ Zdigits2 m.
Proof.
  destruct m as [|p|p]; cbn [Zdigits2]; intros H; [cbn; lia| |lia].
  apply digits2_pos_bounds.
Qed.

Lemma Zdigits2_le m k : 0 <= m -> 0 <= k -> m < 2 ^ k -> Zdigits2 m <= k.
Proof.
  destruct m as [|p|p]; cbn [Zdigits2]; intros H Hk Hlt; [lia| |lia].
  pose proof (digits2_pos_bounds p) as [Hlo _].
  assert (2 ^ (Z.pos (digits2_pos p) - 1) < 2 ^ k) by lia.
  apply Z.pow_lt_mono_r_iff in H0; lia.
Qed.

Lemma Zdigits2_ge m k : 0 <= k -> 2 ^ k <= m -> k < Zdigits2 m.
Proof.
  intros Hk Hle. assert (0 < 2 ^ k) by (apply Z.pow_pos_nonneg; lia).
  pose proof (Zdigits2_upper m ltac:(lia)).
  assert (2 ^ k < 2 ^ Zdigits2 m) by lia.
  apply Z.pow_lt_mono_r_iff in H1; [lia|lia|apply Zdigits2_nonneg].
Qed.

(** Right shifts of the rounding record. *)
Lemma shr_1_m r : 0 <= shr_m r -> shr_m (shr_1 r) = shr_m r / 2.
Proof.
  destruct r as [m b s]; cbn [shr_m shr_1]. intros H.
  destruct m as [|[p|p|]|p]; cbn [shr_m]; try lia.
  - reflexivity.
  - rewrite Pos2Z.inj_xI. apply Z.div_unique with 1; lia.
  - rewrite Pos2Z.inj_xO. apply Z.div_unique with 0; lia.
  - reflexivity.
Qed.

Lemma iter_shr_1_m p r :
  0 <= shr_m r -> shr_m (iter_pos shr_1 p r) = shr_m r / 2 ^ Z.pos p.
Proof.
  revert r. induction p as [p IH|p IH|]; intros r H; cbn [iter_pos].
  - assert (H1 : 0 <= shr_m (shr_1 r)) by (rewrite shr_1_m by lia; apply Z.div_pos; lia).
    assert (H2 : 0 <= shr_m (iter_pos shr_1 p (shr_1 r))).
    { rewrite IH by lia. apply Z.div_pos; [lia|]. apply Z.pow_pos_nonneg; lia. }
    rewrite IH, IH, shr_1_m by lia.
    rewrite !Z.div_div by (try apply Z.pow_pos_nonneg; lia).
    f_equal. rewrite Pos2Z.inj_xI. rewrite <- Z.pow_add_r, <- Z.pow_succ_r by lia.
    f_equal. lia.
  - assert (H2 : 0 <= shr_m (iter_pos shr_1 p r)).
    { rewrite IH by lia. apply Z.div_pos; [lia|]. apply Z.pow_pos_nonneg; lia. }
    rewrite IH, IH by lia.
    rewrite !Z.div_div by (try apply Z.pow_pos_nonneg; lia).
    f_equal. rewrite Pos2Z.inj_xO. rewrite <- Z.pow_add_r by lia. f_equal. lia.
  - rewrite shr_1_m by lia. reflexivity.
Qed.

Lemma shr_record_of_loc_m m l : shr_m (shr_record_of_loc m l) = m.
Proof. destruct l as [|[]]; reflexivity. Qed.

(** [shr_fexp] when the exponent is not above the target: the mantissa is
    divided and the exponent becomes the target. *)
Lemma shr_fexp_spec m e l :
  0 <= m -> e <= fexp prec emax (Zdigits2 m + e) ->
  let '(r, e') := shr_fexp prec emax m e l in
  e' = fexp prec emax (Zdigits2 m + e)
  /\ shr_m r = m / 2 ^ (e' - e).
Proof.
  intros Hm He. unfold shr_fexp, shr.
  destruct (fexp prec emax (Zdigits2 m + e) - e) as [|p|p] eqn:Hn.
  - split; [lia|]. replace (e - e) with 0 by lia.
    rewrite shr_record_of_loc_m, Z.pow_0_r, Z.div_1_r. reflexivity.
  - split; [lia|]. rewrite iter_shr_1_m by (rewrite shr_record_of_loc_m; lia).
    rewrite shr_record_of_loc_m. f_equal. f_equal. lia.
  - lia.
Qed.

(** [shr_fexp] in general: the mantissa stays non-negative. *)
Lemma shr_fexp_nonneg m e l :
  0 <= m -> 0 <= shr_m (fst (shr_fexp prec emax m e l)).
Proof.
  intros Hm. unfold shr_fexp, shr.
  destruct (fexp prec emax (Zdigits2 m + e) - e) as [|p|p]; cbn [fst];
    rewrite ?iter_shr_1_m; rewrite ?shr_record_of_loc_m; try lia.
  apply Z.div_pos; [lia|apply Z.pow_pos_nonneg; lia].
Qed.

Lemma round_nearest_even_bounds m l :
  m <= round_nearest_even m l <= m + 1.
Proof.
  unfold round_nearest_even. destruct l as [|[]]; try lia.
  destruct (Z.even m); lia.
Qed.

Lemma binary_round_aux_sign s m e l :
  0 <= m -> sign_is s (binary_round_aux prec emax s m e l).
Proof.
  intros Hm. unfold binary_round_aux.
  pose proof (shr_fexp_nonneg m e l Hm) as H1.
  destruct (shr_fexp prec emax m e l) as [r1 e1]. cbn [fst] in H1.
  pose proof (round_nearest_even_bounds (shr_m r1) (loc_of_shr_record r1)) as H2.
  set (mr := round_nearest_even _ _) in *.
  pose proof (shr_fexp_nonneg mr e1 loc_Exact ltac:(lia)) as H3.
  destruct (shr_fexp prec emax mr e1 loc_Exact) as [r2 e2]. cbn [fst] in H3.
  destruct (shr_m r2); [reflexivity| |lia].
  destruct (e2 <=? emax - prec); reflexivity.
Qed.

Lemma binary_round_sign s m e : sign_is s (binary_round prec emax s m e).
Proof.
  unfold binary_round. destruct (shl_align _ _ _) as [mz ez].
  apply binary_round_aux_sign. lia.
Qed.

Lemma binary_normalize_nonneg m e :
  0 <= m -> sign_is false (binary_normalize prec emax m e false).
Proof.
  destruct m; cbn [binary_normalize]; intros H; [reflexivity| |lia].
  apply binary_round_sign.
Qed.

Lemma binary_normalize_neg m e :
  m < 0 -> sign_is true (binary_normalize prec emax m e false).
Proof.
  destruct m; cbn [binary_normalize]; intros H; [lia|lia|].
  apply binary_round_sign.
Qed.

Lemma SFleb_finite (p q : positive) (e : Z) :
  (Z.pos p <= Z.pos q) ->
  SFleb (S754_finite false p e) (S754_finite false q e) = true.
Proof.
  intros H. unfold SFleb, SFcompare. rewrite Z.compare_refl.
  rewrite Pos.compare_cont_spec. cbn [Pos.switch_Eq].
  destruct (Pos.compare_spec p q) as [Hp|Hp|Hp]; try reflexivity. lia.
Qed.

Lemma SFleb_finite_lt (p q : positive) (e e' : Z) :
  e < e' ->
  SFleb (S754_finite false p e) (S754_finite false q e') = true.
Proof.
  intros H. unfold SFleb, SFcompare.
  destruct (Z.compare_spec e e'); try reflexivity; lia.
Qed.

Lemma SFleb_finite_one (p : positive) (e : Z) :
  e < -52 \/ (e = -52 /\ Z.pos p <= 4503599627370496) ->
  SFleb (S754_finite false p e) SF_one = true.
Proof.
  intros [H|[-> H]]; unfold SF_one.
  - now apply SFleb_finite_lt.
  - now apply SFleb_finite.
Qed.

Lemma pow2_53 : 2 ^ 53 = 9007199254740992.
Proof. reflexivity. Qed.

(** Rounding a value below one never exceeds one. *)
Lemma binary_round_aux_le_one m e l :
  0 <= m -> Zdigits2 m + e <= 0 -> e <= fexp prec emax (Zdigits2 m + e) ->
  SFleb (binary_round_aux prec emax false m e l) SF_one = true.
Proof.
  intros Hm Hd He. unfold binary_round_aux.
  pose proof (shr_fexp_spec m e l Hm He) as H1.
  destruct (shr_fexp prec emax m e l) as [r1 e1]. destruct H1 as [He1 Hm1].
  rewrite fexp_eq in He, He1.
  assert (Hp : 0 < 2 ^ (e1 - e)) by (apply Z.pow_pos_nonneg; lia).
  assert (Hm1b : 0 <= shr_m r1 < 2 ^ 53).
  { rewrite Hm1. split; [apply Z.div_pos; lia|].
    apply Z.div_lt_upper_bound; [lia|].
    rewrite <- Z.pow_add_r by lia.
    apply Z.lt_le_trans with (2 ^ Zdigits2 m); [now apply Zdigits2_upper|].
    apply Z.pow_le_mono_r; lia. }
  rewrite pow2_53 in Hm1b.
  pose proof (round_nearest_even_bounds (shr_m r1) (loc_of_shr_record r1)) as Hr.
  set (mr := round_nearest_even _ _) in *.
  assert (Hdr : Zdigits2 mr <= 54).
  { apply Zdigits2_le; lia. }
  pose proof (Zdigits2_nonneg mr) as Hdr0.
  unfold shr_fexp, shr. rewrite fexp_eq.
  destruct (Z.max (Zdigits2 mr + e1 - 53) (-1074) - e1) as [|p|p] eqn:Hn;
    cbn [shr_record_of_loc shr_m].
  - destruct mr as [|q|q]; [reflexivity| |lia].
    replace (e1 <=? emax - prec) with true
      by (symmetry; apply Z.leb_le; unfold emax, prec; lia).
    apply SFleb_finite_one. lia.
  - rewrite iter_shr_1_m by (cbn [shr_m]; lia). cbn [shr_m].
    assert (Hq : 0 <= mr / 2 ^ Z.pos p) by (apply Z.div_pos; [lia|apply Z.pow_pos_nonneg; lia]).
    destruct (mr / 2 ^ Z.pos p) as [|q|q] eqn:Hdiv; [reflexivity| |lia].
    replace (e1 + Z.pos p <=? emax - prec) with true
      by (symmetry; apply Z.leb_le; unfold emax, prec; lia).
    apply SFleb_finite_one.
    destruct (Z.eq_dec (e1 + Z.pos p) (-52)) as [Heq|Hne]; [right|left; lia].
    split; [exact Heq|].
    assert (Zdigits2 mr = 54 /\ e1 = -53 /\ Z.pos p = 1) as (Hd54 & -> & Hp1) by lia.
    rewrite <- Hdiv, Hp1. replace (2 ^ 1) with 2 by reflexivity.
    apply Z.div_le_upper_bound; lia.
  - destruct mr as [|q|q]; [reflexivity| |lia].
    replace (e1 <=? emax - prec) with true
      by (symmetry; apply Z.leb_le; unfold emax, prec; lia).
    apply SFleb_finite_one. lia.
Qed.

Lemma iter_xO_pow m d : Z.pos (Pos.iter xO m d) = Z.pos m * 2 ^ Z.pos d.
Proof.
  rewrite <- Pos2Z.inj_pow, <- Pos2Z.inj_mul. f_equal.
  revert m. induction d as [|d IH] using Pos.peano_ind; intros m.
  - cbn. lia.
  - rewrite Pos.iter_succ, IH, Pos.pow_succ_r. lia.
Qed.

Lemma Zdigits2_mul_pow2 m d :
  0 < m -> 0 <= d -> Zdigits2 (m * 2 ^ d) = Zdigits2 m + d.
Proof.
  intros Hm Hd.
  assert (H2 : 0 < 2 ^ d) by (apply Z.pow_pos_nonneg; lia).
  destruct m as [|p|p]; try lia.
  pose proof (digits2_pos_bounds p) as [Hlo Hhi].
  cbn [Zdigits2].
  apply Z.le_antisymm.
  - apply Zdigits2_le; [nia|lia|].
    rewrite Z.pow_add_r by lia.
    apply Z.mul_lt_mono_pos_r; lia.
  - enough (Z.pos (digits2_pos p) + d - 1 < Zdigits2 (Z.pos p * 2 ^ d)) by lia.
    apply Zdigits2_ge; [lia|].
    replace (Z.pos (digits2_pos p) + d - 1) with (Z.pos (digits2_pos p) - 1 + d) by lia.
    rewrite Z.pow_add_r by lia.
    apply Z.mul_le_mono_nonneg_r; lia.
Qed.

Lemma binary_round_le_one p e :
  Z.pos (digits2_pos p) + e <= 0 ->
  SFleb (binary_round prec emax false p e) SF_one = true.
Proof.
  intros Hd. unfold binary_round, shl_align.
  set (t := fexp prec emax (Z.pos (digits2_pos p) + e)).
  destruct (t - e) as [|d|d] eqn:Ht.
  - apply binary_round_aux_le_one; cbn [Zdigits2]; fold t; lia.
  - apply binary_round_aux_le_one; cbn [Zdigits2]; fold t; lia.
  - pose proof (Zdigits2_mul_pow2 (Z.pos p) (Z.pos d) ltac:(lia) ltac:(lia)) as Hdig.
    rewrite <- iter_xO_pow in Hdig. cbn [Zdigits2] in Hdig.
    apply binary_round_aux_le_one; cbn [Zdigits2]; rewrite ?Hdig; try lia.
    replace (Z.pos (digits2_pos p) + Z.pos d + t) with (Z.pos (digits2_pos p) + e) by lia.
    fold t. lia.
Qed.

(** The aligned mantissa: the same value at the smaller exponent. *)
Lemma shl_align_value mx ex ez :
  ez <= ex -> Z.pos (fst (shl_align mx ex ez)) = Z.pos mx * 2 ^ (ex - ez).
Proof.
  intros H. unfold shl_align.
  destruct (ez - ex) as [|d|d] eqn:Hd; cbn [fst].
  - replace (ex - ez) with 0 by lia. rewrite Z.pow_0_r. lia.
  - lia.
  - rewrite iter_xO_pow. f_equal. f_equal. lia.
Qed.

Lemma sign_true_le_one x : sign_is true x -> SFleb x SF_one = true.
Proof.
  destruct x as [s|s| |s m e]; cbn [sign_is]; intros H; subst;
    try reflexivity; contradiction.
Qed.

Lemma SFsub_one_le d :
  sign_is false d -> SFleb (SFsub prec emax SF_one d) SF_one = true.
Proof.
  destruct d as [s|s| |s md ed]; cbn [sign_is]; intros H; subst; try contradiction.
  - cbn [SFsub SF_one]. apply SFleb_finite. lia.
  - reflexivity.
  - unfold SF_one at 1. cbn [SFsub cond_Zopp].
    set (ez := Z.min (-52) ed).
    rewrite !shl_align_value by (unfold ez; lia).
    assert (Hpow : 4503599627370496 * 2 ^ (-52 - ez) = 2 ^ (- ez)).
    { replace 4503599627370496 with (2 ^ 52) by reflexivity.
      rewrite <- Z.pow_add_r by (unfold ez; lia). f_equal. lia. }
    rewrite Hpow.
    assert (Hy : 0 < Z.pos md * 2 ^ (ed - ez)).
    { apply Z.mul_pos_pos; [lia|]. apply Z.pow_pos_nonneg; unfold ez; lia. }
    destruct (2 ^ (- ez) - Z.pos md * 2 ^ (ed - ez)) as [|q|q] eqn:HM;
      cbn [binary_normalize].
    + reflexivity.
    + apply binary_round_le_one.
      enough (Zdigits2 (Z.pos q) <= - ez) by (cbn [Zdigits2] in *; lia).
      apply Zdigits2_le; unfold ez in *; lia.
    + apply sign_true_le_one, binary_round_sign.
Qed.

Lemma SFdiv_sign x y :
  sign_is false x -> sign_is false y ->
  SFdiv prec emax x y = S754_nan \/ sign_is false (SFdiv prec emax x y).
Proof.
  destruct x as [sx|sx| |sx mx ex], y as [sy|sy| |sy my ey]; cbn [sign_is];
    intros Hx Hy; subst; try contradiction; cbn [SFdiv xorb sign_is]; auto.
  right. unfold SFdiv_core_binary.
  set (s := ex - ey - _).
  set (m' := match s with Z0 => Z.pos mx | Z.pos _ => Z.shiftl (Z.pos mx) s | Z.neg _ => 0 end).
  assert (Hm' : 0 <= m').
  { unfold m'. destruct s; try lia. apply Z.shiftl_nonneg. lia. }
  pose proof (Z.div_pos m' (Z.pos my) Hm' ltac:(lia)) as Hq.
  unfold Z.div in Hq. destruct (Z.div_eucl m' (Z.pos my)) as [q r].
  now apply binary_round_aux_sign.
Qed.

Lemma Prim2SF_one : Prim2SF 1%float = SF_one.
Proof. reflexivity. Qed.

Lemma is_nan_spec x : is_nan x = true <-> Prim2SF x = S754_nan.
Proof.
  unfold is_nan. rewrite eqb_spec, negb_true_iff. unfold SFeqb, SFcompare.
  destruct (Prim2SF x) as [s|s| |s m e]; try destruct s;
    rewrite ?Z.compare_refl, ?Pos.compare_cont_spec, ?Pos.compare_refl; cbn;
    split; congruence.
Qed.

Lemma is_finite_not_nan x : is_finite x = true -> Prim2SF x <> S754_nan.
Proof.
  unfold is_finite. rewrite negb_true_iff, orb_false_iff. intros [Hn _] Hx.
  apply is_nan_spec in Hx. congruence.
Qed.

Lemma of_int_nonneg z : 0 <= z -> sign_is false (Prim2SF (Np.of_int z)).
Proof.
  intros Hz. unfold Np.of_int.
  replace (z <? 0) with false by (symmetry; apply Z.ltb_ge; lia).
  rewrite of_uint63_spec. apply binary_normalize_nonneg.
  apply Uint63.to_Z_bounded.
Qed.

(** The PSD of non-negative charges is never above one. *)
Lemma psd_le_one (qs ql : Z) :
  0 <= qs -> 0 <= ql ->
  is_finite (1 - Np.of_int qs / Np.of_int ql)%float = true ->
  (1 - Np.of_int qs / Np.of_int ql <=? 1)%float = true.
Proof.
  intros Hqs Hql Hfin. apply is_finite_not_nan in Hfin.
  rewrite leb_spec. rewrite sub_spec, div_spec, Prim2SF_one in *.
  unfold SF64sub, SF64div in *.
  destruct (SFdiv_sign _ _ (of_int_nonneg qs Hqs) (of_int_nonneg ql Hql)) as [Hnan|Hs].
  - rewrite Hnan in Hfin. exfalso. apply Hfin. reflexivity.
  - now apply SFsub_one_le.
Qed.

Local Close Scope Z_scope.
Local Open Scope float_scope.

(** Order facts on binary64, through the specification [SFcompare]. *)

Ltac cmp_cases :=
  repeat match goal with
    | H : context [Z.compare ?a ?b] |- _ => destruct (Z.compare_spec a b); cbn in H
    | H : context [Pos.compare_cont Eq ?a ?b] |- _ =>
        change (Pos.compare_cont Eq a b) with (Pos.compare a b) in H;
        destruct (Pos.compare_spec a b); cbn in H
    | |- context [Z.compare ?a ?b] => destruct (Z.compare_spec a b); cbn
    | |- context [Pos.compare_cont Eq ?a ?b] =>
        change (Pos.compare_cont Eq a b) with (Pos.compare a b);
        destruct (Pos.compare_spec a b); cbn
    end;
  try discriminate; try reflexivity; try lia.

Lemma SFltb_trans_nlt (x a b : spec_float) :
  SFltb x a = true -> SFltb b a = false -> b <> S754_nan -> SFltb x b = true.
Proof.
  unfold SFltb.
  destruct x as [sx|sx| |sx mx ex], a as [sa|sa| |sa ma ea], b as [sb|sb| |sb mb eb];
    try destruct sx; try destruct sa; try destruct sb; cbn; intros H1 H2 H3;
    try discriminate; try reflexivity; try congruence; cmp_cases.
Qed.

Lemma SFltb_leb x b : SFltb x b = true -> SFleb x b = true.
Proof. unfold SFltb, SFleb. now destruct (SFcompare x b) as [[]|]. Qed.

Lemma SFltb_nan_l b : SFltb S754_nan b = false.
Proof. reflexivity. Qed.

Lemma SFleb_nan_l b : SFleb S754_nan b = false.
Proof. reflexivity. Qed.

Lemma SFleb_nan_r b : SFleb b S754_nan = false.
Proof. now destruct b. Qed.

Lemma SFleb_negb_ltb x lo :
  lo <> S754_nan -> x <> S754_nan -> negb (SFltb x lo) = SFleb lo x.
Proof.
  unfold SFltb, SFleb.
  destruct x as [sx|sx| |sx mx ex], lo as [sa|sa| |sa ma ea];
    try destruct sx; try destruct sa; cbn; intros H1 H2;
    try reflexivity; try congruence; cmp_cases.
Qed.

Lemma is_nan_false x : is_nan x = false <-> Prim2SF x <> S754_nan.
Proof.
  rewrite <- is_nan_spec. destruct (is_nan x); split; congruence.
Qed.

Lemma ltb_trans_nlt x a b :
  (x <? a) = true -> (b <? a) = false -> is_nan b = false -> (x <? b) = true.
Proof.
  rewrite !ltb_spec, is_nan_false. apply SFltb_trans_nlt.
Qed.

Lemma ltb_leb x b : (x <? b) = true -> (x <=? b) = true.
Proof. rewrite ltb_spec, leb_spec. apply SFltb_leb. Qed.

Lemma in_bin_left lo b x :
  is_nan lo = false -> (x <? b) && negb (x <? lo) = (lo <=? x) && (x <? b).
Proof.
  rewrite is_nan_false, !ltb_spec, leb_spec. intros Hlo.
  destruct (Prim2SF x) eqn:Hx;
    try (rewrite SFleb_negb_ltb by congruence; apply andb_comm).
  now rewrite SFleb_nan_r.
Qed.

Lemma in_bin_right lo b x :
  is_nan lo = false -> (x <=? b) && negb (x <? lo) = (lo <=? x) && (x <=? b).
Proof.
  rewrite is_nan_false, !ltb_spec, !leb_spec. intros Hlo.
  destruct (Prim2SF x) eqn:Hx;
    try (rewrite SFleb_negb_ltb by congruence; apply andb_comm).
  now rewrite SFleb_nan_r.
Qed.

(** ** The histogram *)

Lemma count_nonneg p a : (0 <= Np.count p a)%Z.
Proof. unfold Np.count. lia. Qed.

Lemma count_le_length p a : (Np.count p a <= Z.of_nat (length a))%Z.
Proof. unfold Np.count. pose proof (filter_length_le p a). lia. Qed.

Lemma count_ext p q a : (forall x, p x = q x) -> Np.count p a = Np.count q a.
Proof. intros H. unfold Np.count. now rewrite (filter_ext p q H). Qed.

(** Counting a set minus a subset of it. *)
Lemma count_diff (p q : float -> bool) (a : list float) :
  (forall x, q x = true -> p x = true) ->
  (Np.count p a - Np.count q a)%Z = Np.count (fun x => p x && negb (q x)) a.
Proof.
  intros Hqp. unfold Np.count.
  induction a as [|x a IH]; cbn [filter]; [reflexivity|].
  specialize (Hqp x).
  destruct (p x), (q x); cbn [andb negb length]; try lia.
  all: discriminate (Hqp eq_refl).
Qed.

Lemma diff_length (c : list Z) : length (Np.diff c) = (length c - 1)%nat.
Proof.
  induction c as [|x [|y c] IH]; cbn [Np.diff length] in *; lia.
Qed.

Lemma diff_nth (c : list Z) (i : nat) :
  (i + 1 < length c)%nat ->
  nth i (Np.diff c) 0%Z = (nth (i + 1) c 0 - nth i c 0)%Z.
Proof.
  revert i. induction c as [|x [|y c] IH]; intros i Hi; cbn [length] in Hi; try lia.
  destruct i as [|i].
  - reflexivity.
  - cbn [Np.diff]. cbn [nth plus]. rewrite IH by (cbn [length]; lia).
    replace (i + 1)%nat with (S i) by lia. reflexivity.
Qed.

Lemma diff_sum (x : Z) (c : list Z) :
  Zsum (Np.diff (x :: c)) = (last (x :: c) 0 - x)%Z.
Proof.
  revert x. induction c as [|y c IH]; intros x.
  - cbn. lia.
  - change (Np.diff (x :: y :: c)) with ((y - x)%Z :: Np.diff (y :: c)).
    change (Zsum ((y - x)%Z :: Np.diff (y :: c)))
      with ((y - x) + Zsum (Np.diff (y :: c)))%Z.
    rewrite IH.
    change (last (x :: y :: c) 0%Z) with (last (y :: c) 0%Z). lia.
Qed.

Lemma monotonic_nth (edges : list float) (i : nat) :
  Np.monotonic edges = true -> (i + 1 < length edges)%nat ->
  (nth (i + 1) edges 0 <? nth i edges 0) = false.
Proof.
  revert i. induction edges as [|x [|y edges] IH]; intros i Hm Hi;
    cbn [length] in Hi; try lia.
  cbn [Np.monotonic] in Hm. apply andb_true_iff in Hm as [Hxy Hm].
  destruct i as [|i].
  - cbn. now apply negb_true_iff.
  - replace (S i + 1)%nat with (S (i + 1)) by lia.
    change (nth (S (i + 1)) (x :: y :: edges) 0) with (nth (i + 1) (y :: edges) 0).
    change (nth (S i) (x :: y :: edges) 0) with (nth i (y :: edges) 0).
    apply IH; [exact Hm|cbn [length]; lia].
Qed.

Lemma no_nan_nth (edges : list float) (i : nat) :
  no_nan edges = true -> (i < length edges)%nat -> is_nan (nth i edges 0) = false.
Proof.
  intros H Hi. unfold no_nan in H. rewrite forallb_forall in H.
  apply negb_true_iff, H, nth_In, Hi.
Qed.

(** Below one edge is below every later edge. *)
Lemma below_later_edge (edges : list float) (x : float) (i j : nat) :
  Np.monotonic edges = true -> no_nan edges = true ->
  (i <= j)%nat -> (j < length edges)%nat ->
  (x <? nth i edges 0) = true -> (x <? nth j edges 0) = true.
Proof.
  intros Hm Hn Hij Hj Hx. induction Hij as [|j Hij IH]; [exact Hx|].
  apply ltb_trans_nlt with (nth j edges 0).
  - apply IH. lia.
  - replace (S j) with (j + 1)%nat by lia. apply monotonic_nth; [exact Hm|lia].
  - now apply no_nan_nth.
Qed.

Lemma search_sorted_inclusive_snoc a init l :
  Np.search_sorted_inclusive a (init ++ [l]) =
  map (Np.searchsorted_left a) init ++ [Np.searchsorted_right a l].
Proof.
  unfold Np.search_sorted_inclusive.
  rewrite removelast_last, length_app. cbn [length].
  replace (length init + 1 - 1)%nat with (length init + 0)%nat by lia.
  rewrite skipn_app, Nat.add_0_r, skipn_all, Nat.sub_diag. reflexivity.
Qed.

Lemma search_sorted_inclusive_length a v :
  length (Np.search_sorted_inclusive a v) = length v.
Proof.
  destruct v as [|x v] using rev_ind; [reflexivity|].
  rewrite search_sorted_inclusive_snoc, !length_app, length_map. reflexivity.
Qed.

Lemma search_sorted_inclusive_nth a v i :
  (i < length v)%nat ->
  nth i (Np.search_sorted_inclusive a v) 0%Z =
  if (i + 1 =? length v)%nat then Np.searchsorted_right a (nth i v 0)
  else Np.searchsorted_left a (nth i v 0).
Proof.
  destruct v as [|l init _] using rev_ind; [cbn; lia|].
  rewrite length_app, search_sorted_inclusive_snoc. cbn [length]. intros Hi.
  destruct (Nat.eqb_spec (i + 1) (length init + 1)) as [He|Hne].
  - assert (i = length init) as -> by lia.
    rewrite app_nth2, length_map, Nat.sub_diag by (rewrite length_map; lia).
    rewrite app_nth2, Nat.sub_diag by lia. reflexivity.
  - rewrite !app_nth1 by (rewrite ?length_map; lia).
    rewrite (nth_indep _ 0%Z (Np.searchsorted_left a 0)) by (rewrite length_map; lia).
    now rewrite map_nth.
Qed.

Lemma histogram_returns a edges :
  Np.monotonic edges = true ->
  Np.histogram a edges = Returns (Np.diff (Np.search_sorted_inclusive a edges)).
Proof. intros H. unfold Np.histogram. now rewrite H. Qed.

(** Bin [i] counts the values in [edges[i], edges[i+1]), and the last bin
    those in [edges[n-1], edges[n]]. *)
Lemma histogram_bin a edges i :
  Np.monotonic edges = true -> no_nan edges = true ->
  (i + 1 < length edges)%nat ->
  nth i (Np.diff (Np.search_sorted_inclusive a edges)) 0%Z =
  Np.count (in_bin (i + 2 =? length edges)%nat (nth i edges 0) (nth (i + 1) edges 0)) a.
Proof.
  intros Hm Hn Hi.
  rewrite diff_nth by (rewrite search_sorted_inclusive_length; lia).
  rewrite !search_sorted_inclusive_nth by lia.
  replace (i + 1 + 1)%nat with (i + 2)%nat by lia.
  replace (i + 1 =? length edges)%nat with false by (symmetry; apply Nat.eqb_neq; lia).
  pose proof (monotonic_nth edges i Hm Hi) as Hmono.
  pose proof (no_nan_nth edges i Hn ltac:(lia)) as Hlo.
  pose proof (no_nan_nth edges (i + 1) Hn Hi) as Hhi.
  unfold Np.searchsorted_left, Np.searchsorted_right, in_bin.
  destruct (i + 2 =? length edges)%nat.
  - rewrite count_diff.
    + apply count_ext. intros x. now apply in_bin_right.
    + intros x Hx. apply ltb_leb. now apply ltb_trans_nlt with (nth i edges 0).
  - rewrite count_diff.
    + apply count_ext. intros x. now apply in_bin_left.
    + intros x Hx. now apply ltb_trans_nlt with (nth i edges 0).
Qed.

(** The counts add up to the number of values between the first and the
    last edge, both included. *)
Lemma histogram_sum a edges :
  Np.monotonic edges = true -> no_nan edges = true ->
  (2 <= length edges)%nat ->
  Zsum (Np.diff (Np.search_sorted_inclusive a edges)) =
  Np.count (in_bin true (hd 0 edges) (last edges 0)) a.
Proof.
  intros Hm Hn Hlen.
  pose proof (below_later_edge edges) as Hbelow.
  pose proof (no_nan_nth edges 0 Hn ltac:(lia)) as Hlo.
  destruct edges as [|l init _] using rev_ind; [cbn in Hlen; lia|].
  destruct init as [|e0 init]; [cbn in Hlen; lia|].
  rewrite search_sorted_inclusive_snoc. cbn [map app hd].
  rewrite diff_sum.
  change (Np.searchsorted_left a e0 :: map (Np.searchsorted_left a) init ++ [Np.searchsorted_right a l])
    with ((Np.searchsorted_left a e0 :: map (Np.searchsorted_left a) init) ++ [Np.searchsorted_right a l]).
  rewrite last_last.
  change (last ((e0 :: init) ++ [l]) 0) with (last ((e0 :: init) ++ [l]) 0).
  replace (last (e0 :: init ++ [l]) 0) with l
    by (symmetry; apply (last_last (e0 :: init) l 0)).
  unfold Np.searchsorted_left, Np.searchsorted_right, in_bin.
  cbn [app nth] in Hlo.
  rewrite count_diff.
  - apply count_ext. intros x. now apply in_bin_right.
  - intros x Hx. apply ltb_leb.
    specialize (Hbelow x 0%nat (length (e0 :: init)) Hm Hn (Nat.le_0_l _)).
    assert (Hl : nth (length (e0 :: init)) ((e0 :: init) ++ [l]) 0 = l).
    { rewrite app_nth2 by apply Nat.le_refl. now rewrite Nat.sub_diag. }
    rewrite Hl in Hbelow.
    apply Hbelow; [rewrite length_app; cbn [length]; lia|exact Hx].
Qed.

Local Close Scope float_scope.

(** ** The whole file, whatever its length *)

(** Any byte string is a sequence of full records and a shorter rest. *)
Lemma split_chunks (f : list byte) :
  exists chunks tail,
    f = concat chunks ++ tail
    /\ Forall (fun c => length c = record_size) chunks
    /\ length tail < record_size.
Proof.
  remember (length f) as n eqn:Hn. revert f Hn.
  induction n as [n IH] using lt_wf_ind. intros f Hn.
  destruct (Nat.lt_ge_cases (length f) record_size) as [Hlt|Hge].
  - exists [], f. repeat split; [constructor|exact Hlt].
  - destruct (IH (length (skipn record_size f))) with (f := skipn record_size f)
      as (chunks & tail & Heq & Hall & Htail).
    + rewrite length_skipn. unfold record_size in *. lia.
    + reflexivity.
    + exists (firstn record_size f :: chunks), tail. repeat split.
      * cbn [concat]. rewrite <- app_assoc, <- Heq. symmetry. apply firstn_skipn.
      * constructor; [|exact Hall]. rewrite length_firstn. lia.
      * exact Htail.
Qed.

Lemma parse_bin_file_total (file : list byte) :
  exists records,
    parse_bin_file file = Returns records
    /\ Forall (fun r => length r = 21) records
    /\ length records = (length file - 8) / 50.
Proof.
  destruct (split_chunks (skipn 8 file)) as (chunks & tail & Heq & Hall & Htail).
  exists (map (Struct.unpack_codes record_codes) chunks). repeat split.
  - unfold parse_bin_file, read. rewrite Heq. now apply read_loop_chunks.
  - apply Forall_forall. intros r Hin. apply in_map_iff in Hin as [c [<- _]].
    apply unpack_codes_length.
  - rewrite length_map. rewrite <- length_skipn, Heq, length_app.
    assert (Hc : length (concat chunks) = 50 * length chunks).
    { clear Heq. induction Hall as [|c chunks Hc _ IH]; [reflexivity|].
      cbn [concat length]. rewrite length_app, IH, Hc. unfold record_size. lia. }
    rewrite Hc. apply Nat.div_unique with (length tail); [exact Htail|lia].
Qed.

(** ** Masks *)

Lemma select_map_map {A B} (p : A -> bool) (h : A -> B) (l : list A) :
  Np.select (map p l) (map h l) = map h (filter p l).
Proof.
  induction l as [|x l IH]; cbn [map Np.select filter]; [reflexivity|].
  destruct (p x); cbn [map]; now rewrite IH.
Qed.

Lemma select_map {A} (p : A -> bool) (l : list A) :
  Np.select (map p l) l = filter p l.
Proof.
  rewrite <- (map_id l) at 2. rewrite select_map_map. apply map_id.
Qed.

Lemma select_combine {A B} (mask : list bool) (a : list A) (b : list B) :
  combine (Np.select mask a) (Np.select mask b) = Np.select mask (combine a b).
Proof.
  revert a b. induction mask as [|m mask IH]; intros a b.
  - now destruct a, b.
  - destruct a as [|x a], b as [|y b]; cbn [Np.select combine].
    + reflexivity.
    + reflexivity.
    + now destruct m, (Np.select mask a).
    + destruct m; cbn [combine]; now rewrite IH.
Qed.

Lemma select_incl {A} (mask : list bool) (a : list A) :
  incl (Np.select mask a) a.
Proof.
  revert a. induction mask as [|m mask IH]; intros [|x a]; cbn [Np.select];
    try apply incl_nil_l.
  destruct m.
  - apply incl_cons; [now left|]. apply incl_tl, IH.
  - apply incl_tl, IH.
Qed.

Lemma select_length {A} (mask : list bool) (a : list A) :
  length (Np.select mask a) <= length a.
Proof.
  revert a. induction mask as [|m mask IH]; intros [|x a]; cbn [Np.select length];
    try lia.
  specialize (IH a). destruct m; cbn [length]; lia.
Qed.

Lemma map2_map {A B C D} (f : B -> C -> D) (g : A -> B) (h : A -> C) (l : list A) :
  Np.map2 f (map g l) (map h l) = map (fun x => f (g x) (h x)) l.
Proof.
  induction l as [|x l IH]; cbn [map Np.map2]; [reflexivity|]. now rewrite IH.
Qed.

Lemma map2_length {A B C} (f : A -> B -> C) (a : list A) (b : list B) :
  length (Np.map2 f a b) = Nat.min (length a) (length b).
Proof.
  revert b. induction a as [|x a IH]; intros [|y b]; cbn [Np.map2 length]; try reflexivity.
  now rewrite IH.
Qed.

(** ** The stages of [update_plots] *)

Lemma compute_psd_map {A} (f g : A -> Z) (l : list A) :
  compute_psd (map f l) (map g l) = map (fun r => psd_value (f r) (g r)) l.
Proof.
  unfold compute_psd, Np.rsub, Np.true_divide.
  rewrite map2_map, map_map. reflexivity.
Qed.

Lemma valid_stage_map {A} (f g : A -> Z) (l : list A) :
  valid_stage (map f l) (map g l) =
  (map (fun r => psd_value (f r) (g r))
       (filter (fun r => is_finite (psd_value (f r) (g r))) l),
   map f (filter (fun r => is_finite (psd_value (f r) (g r))) l)).
Proof.
  unfold valid_stage, Np.isfinite. rewrite compute_psd_map, map_map.
  now rewrite !select_map_map.
Qed.

Lemma threshold_stage_map {A} (P : A -> float) (f : A -> Z) (t : float) (l : list A) :
  threshold_stage true t (map P l) (map f l) =
  (map P (filter (fun r => (t <? P r)%float) l),
   map f (filter (fun r => (t <? P r)%float) l)).
Proof.
  unfold threshold_stage, Np.greater. rewrite map_map.
  now rewrite !select_map_map.
Qed.

Lemma select_greater_combine (t : float) (psd : list float) (ql : list Z) :
  Np.select (Np.greater psd t) (combine ql psd) =
  filter (fun e => (t <? snd e)%float) (combine ql psd).
Proof.
  unfold Np.greater. revert ql.
  induction psd as [|p psd IH]; intros [|q ql]; cbn [map combine Np.select filter snd];
    try reflexivity.
  rewrite IH. reflexivity.
Qed.

Lemma threshold_stage_events (t : float) (psd : list float) (ql : list Z) :
  events (threshold_stage true t psd ql) =
  filter (fun e => (t <? snd e)%float) (events (psd, ql)).
Proof.
  unfold events, threshold_stage. cbn [fst snd].
  rewrite select_combine. apply select_greater_combine.
Qed.

Lemma bin_edges_nf_eq : bin_edges = bin_edges_nf.
Proof. vm_compute. reflexivity. Qed.

Lemma monotonic_bin_edges : Np.monotonic bin_edges = true.
Proof. rewrite bin_edges_nf_eq. vm_compute. reflexivity. Qed.

Lemma no_nan_bin_edges : no_nan bin_edges = true.
Proof. rewrite bin_edges_nf_eq. vm_compute. reflexivity. Qed.

Lemma length_bin_edges : length bin_edges = 4097.
Proof. rewrite bin_edges_nf_eq. vm_compute. reflexivity. Qed.

Lemma spectrum_stage_returns (qf : list Z) :
  spectrum_stage qf = Returns (spectrum_table qf).
Proof.
  unfold spectrum_stage, spectrum_table.
  destruct (0 <? length qf)%nat; [|reflexivity].
  unfold Np.histogram. rewrite monotonic_bin_edges. reflexivity.
Qed.

(** [update_plots] never raises: it returns the application untouched when
    there is no event, and refreshed otherwise. *)
Lemma update_plots_returns (self : PSDApp) :
  update_plots self =
  Returns (if (length (qlong self) =? 0)%nat then self else recomputed self).
Proof.
  unfold update_plots, recomputed, filtered.
  destruct (length (qlong self) =? 0)%nat; [reflexivity|].
  destruct (valid_stage (qlong self) (qshort self)) as [psd qv].
  destruct (threshold_stage _ _ psd qv) as [pf qf]. cbn [fst snd].
  rewrite spectrum_stage_returns. reflexivity.
Qed.

Lemma load_file_returns (self : PSDApp) (file : list byte) :
  exists records,
    parse_bin_file file = Returns records
    /\ Forall (fun r => length r = 21) records
    /\ length records = (length file - 8) / 50
    /\ load_file self file = update_plots (loaded self records).
Proof.
  destruct (parse_bin_file_total file) as (records & Hparse & Hlen & Hn).
  exists records. repeat split; try assumption.
  unfold load_file. rewrite Hparse. cbn [bind].
  rewrite (read_saved_csv records Hlen). reflexivity.
Qed.

Lemma filter_filter_andb {A} (p q : A -> bool) (l : list A) :
  filter q (filter p l) = filter (fun x => p x && q x) l.
Proof.
  induction l as [|x l IH]; cbn [filter]; [reflexivity|].
  destruct (p x); cbn [filter andb]; [destruct (q x)|]; now rewrite IH.
Qed.

Lemma combine_map_map {A B C} (f : A -> B) (g : A -> C) (l : list A) :
  combine (map f l) (map g l) = map (fun x => (f x, g x)) l.
Proof.
  induction l as [|x l IH]; cbn [map combine]; [reflexivity|]. now rewrite IH.
Qed.

(** [update_plots] only ever writes the two tables. *)
Lemma update_plots_keeps (self s' : PSDApp) :
  update_plots self = Returns s' ->
  csv_file s' = csv_file self /\ qlong s' = qlong self /\ qshort s' = qshort self
  /\ filter_toggle s' = filter_toggle self
  /\ threshold_input s' = threshold_input self.
Proof.
  rewrite update_plots_returns. intros [= <-].
  destruct (length (qlong self) =? 0)%nat; repeat split; reflexivity.
Qed.

Lemma filtered_keeps (self s' : PSDApp) :
  update_plots self = Returns s' -> filtered s' = filtered self.
Proof.
  intros H. apply update_plots_keeps in H as (_ & Hl & Hs & Ht & Hv).
  unfold filtered. now rewrite Hl, Hs, Ht, Hv.
Qed.

(** The events of a freshly loaded file before the threshold filter. *)
Lemma valid_stage_loaded (self : PSDApp) (records : list record) :
  valid_stage (qlong (loaded self records)) (qshort (loaded self records)) =
  (map psd_of (filter participates records),
   map qLong_of (filter participates records)).
Proof.
  cbn [loaded qlong qshort]. rewrite valid_stage_map.
  rewrite filter_filter_andb. reflexivity.
Qed.

Lemma filtered_incl_valid (self : PSDApp) :
  incl (events (filtered self)) (events (valid_stage (qlong self) (qshort self))).
Proof.
  unfold filtered. destruct (valid_stage (qlong self) (qshort self)) as [psd qv].
  destruct (filter_toggle self).
  - rewrite threshold_stage_events. apply incl_filter.
  - apply incl_refl.
Qed.

Lemma participates_iff (r : record) :
  participates r = true <->
  (qLong_of r > 0)%Z /\ (qShort_of r >= 0)%Z /\ is_finite (psd_of r) = true.
Proof.
  unfold participates, positive_charges.
  rewrite !andb_true_iff, Z.gtb_gt, Z.geb_ge. tauto.
Qed.

(** C2: after any load, the events that reach the threshold filter and the
    histograms are exactly those of the decoded records with qLong > 0,
    qShort >= 0 and a finite psd = 1 - qShort/qLong, in file order; the
    filtered events both tables are built from are among them; a record with
    qLong = 0 never takes part, whatever its qShort; and the load returns
    without raising. *)
Theorem valid_events_characterised (self : PSDApp) (file : list byte) :
  exists records s',
    parse_bin_file file = Returns records
    /\ load_file self file = Returns s'
    /\ events (valid_stage (qlong s') (qshort s')) =
       map (fun r => (qLong_of r, psd_of r)) (filter participates records)
    /\ incl (events (filtered s')) (events (valid_stage (qlong s') (qshort s')))
    /\ (qlong s' <> [] ->
        last_spectrum_data s' = spectrum_table (snd (filtered s'))
        /\ last_psd_data s' = psd_stage (fst (filtered s')))
    /\ (forall r, participates r = true <->
          (qLong_of r > 0)%Z /\ (qShort_of r >= 0)%Z /\ is_finite (psd_of r) = true)
    /\ (forall r, qLong_of r = 0%Z -> participates r = false).
Proof.
  destruct (load_file_returns self file) as (records & Hparse & _ & _ & Hload).
  pose proof (update_plots_returns (loaded self records)) as Hup.
  set (s' := if (length (qlong (loaded self records)) =? 0)%nat
             then loaded self records else recomputed (loaded self records)) in Hup.
  exists records, s'.
  pose proof (update_plots_keeps _ _ Hup) as (_ & Hl & Hs & _ & _).
  split; [exact Hparse|]. split; [now rewrite Hload|].
  split.
  { rewrite Hl, Hs, valid_stage_loaded. unfold events. cbn [fst snd].
    apply combine_map_map. }
  split; [apply filtered_incl_valid|].
  split.
  { intros Hne. rewrite (filtered_keeps _ _ Hup). subst s'.
    rewrite Hl in Hne.
    destruct (qlong (loaded self records)) as [|q ql] eqn:Hq; [congruence|].
    cbn [length Nat.eqb]. split; reflexivity. }
  split; [exact participates_iff|].
  intros r Hr. unfold participates, positive_charges. rewrite Hr. reflexivity.
Qed.

(** C3: with the filter off the threshold stage returns the valid events
    unchanged; with it on it returns exactly the events with psd > t (an
    event is returned iff it is valid and has psd > t); and [update_plots]
    builds the spectrum from the qLong values and the PSD table from the psd
    values of that one filtered pair of arrays. *)
Theorem threshold_filter_gates_both (psd : list float) (qlong_valid : list Z)
  (t : float) (self : PSDApp) :
  threshold_stage false t psd qlong_valid = (psd, qlong_valid)
  /\ events (threshold_stage true t psd qlong_valid) =
     filter (fun e => (t <? snd e)%float) (events (psd, qlong_valid))
  /\ (forall e, In e (events (threshold_stage true t psd qlong_valid)) <->
                In e (events (psd, qlong_valid)) /\ (t <? snd e)%float = true)
  /\ fst (threshold_stage true t psd qlong_valid) = filter (fun p => (t <? p)%float) psd
  /\ update_plots self =
     Returns (if (length (qlong self) =? 0)%nat then self
              else {| csv_file := csv_file self;
                      qlong := qlong self;
                      qshort := qshort self;
                      filter_toggle := filter_toggle self;
                      threshold_input := threshold_input self;
                      last_spectrum_data := spectrum_table (snd (filtered self));
                      last_psd_data := psd_stage (fst (filtered self)) |})
  /\ spectrum_stage (snd (filtered self)) = Returns (spectrum_table (snd (filtered self))).
Proof.
  split; [reflexivity|].
  split; [apply threshold_stage_events|].
  split; [intros e; rewrite threshold_stage_events; apply filter_In|].
  split; [unfold threshold_stage, Np.greater; cbn [fst]; apply select_map|].
  split; [apply update_plots_returns|apply spectrum_stage_returns].
Qed.

(** C9: for a fixed threshold, the events returned with the filter on are a
    sub-list of those returned with the filter off: turning the filter off
    can only add events. *)
Theorem disabling_filter_only_adds (psd : list float) (qlong_valid : list Z) (t : float) :
  events (threshold_stage true t psd qlong_valid) =
  filter (fun e => (t <? snd e)%float) (events (threshold_stage false t psd qlong_valid))
  /\ incl (events (threshold_stage true t psd qlong_valid))
          (events (threshold_stage false t psd qlong_valid))
  /\ length (events (threshold_stage true t psd qlong_valid))
     <= length (events (threshold_stage false t psd qlong_valid))
  /\ incl (fst (threshold_stage true t psd qlong_valid))
          (fst (threshold_stage false t psd qlong_valid))
  /\ incl (snd (threshold_stage true t psd qlong_valid))
          (snd (threshold_stage false t psd qlong_valid)).
Proof.
  change (threshold_stage false t psd qlong_valid) with (psd, qlong_valid).
  rewrite threshold_stage_events.
  split; [reflexivity|]. split; [apply incl_filter|].
  split; [apply filter_length_le|].
  split; apply select_incl.
Qed.

Lemma bin_edges_ends : hd 0%float bin_edges = 0%float /\ last bin_edges 0%float = 100000%float.
Proof. rewrite bin_edges_nf_eq. vm_compute. split; reflexivity. Qed.

Lemma bin_widths :
  Np.map2 PrimFloat.sub (tl bin_edges) (removelast bin_edges)
  = repeat (100000 / 4096)%float 4096.
Proof. rewrite bin_edges_nf_eq. vm_compute. reflexivity. Qed.

(** C4: for increasing edges without NaN, bin i counts the values in
    [edges(i), edges(i+1)), the last bin those in [edges(n-1), edges(n)]; the
    counts add up to the number of values between the first and the last
    edge inclusive, values outside being counted nowhere and raising nothing;
    the spectrum has 4096 bins from 0 to 100000, each 100000/4096 wide. *)
Theorem histogram_binning (a edges : list float) :
  Np.monotonic edges = true -> no_nan edges = true -> 2 <= length edges ->
  (exists counts,
      Np.histogram a edges = Returns counts
      /\ length counts = length edges - 1
      /\ (forall i, i + 1 < length edges ->
            nth i counts 0%Z =
            Np.count (in_bin (i + 2 =? length edges)
                             (nth i edges 0%float) (nth (i + 1) edges 0%float)) a)
      /\ Zsum counts = Np.count (in_bin true (hd 0%float edges) (last edges 0%float)) a)
  /\ length bin_edges = 4097
  /\ hd 0%float bin_edges = 0%float
  /\ last bin_edges 0%float = 100000%float
  /\ Np.map2 PrimFloat.sub (tl bin_edges) (removelast bin_edges)
     = repeat (100000 / 4096)%float 4096
  /\ (forall q qlong_filtered,
        exists counts,
          spectrum_stage (q :: qlong_filtered) = Returns (bin_centers bin_edges, counts)
          /\ length counts = 4096
          /\ Zsum counts =
             Np.count (in_bin true 0%float 100000%float)
                      (map Np.of_int (q :: qlong_filtered))).
Proof.
  intros Hm Hn Hlen. split.
  { exists (Np.diff (Np.search_sorted_inclusive a edges)).
    split; [now apply histogram_returns|].
    split; [now rewrite diff_length, search_sorted_inclusive_length|].
    split; [intros i Hi; now apply histogram_bin|now apply histogram_sum]. }
  split; [exact length_bin_edges|].
  split; [apply bin_edges_ends|]. split; [apply bin_edges_ends|].
  split; [exact bin_widths|].
  intros q qf. eexists. rewrite spectrum_stage_returns. unfold spectrum_table.
  cbn [length Nat.ltb Nat.leb]. split; [reflexivity|].
  split.
  - now rewrite diff_length, search_sorted_inclusive_length, length_bin_edges.
  - rewrite histogram_sum.
    + now rewrite (proj1 bin_edges_ends), (proj2 bin_edges_ends).
    + exact monotonic_bin_edges.
    + exact no_nan_bin_edges.
    + rewrite length_bin_edges. lia.
Qed.

Lemma histogram_binning_witness :
  exists counts,
    Np.histogram [0.5; 1; 2.5; 3; 7]%float [0; 1; 2; 3]%float = Returns counts
    /\ length counts = 3
    /\ Zsum counts = 4%Z.
Proof.
  destruct (histogram_binning [0.5; 1; 2.5; 3; 7]%float [0; 1; 2; 3]%float)
    as [(counts & H1 & H2 & _ & H3) _].
  - reflexivity.
  - reflexivity.
  - cbn [length]. lia.
  - exists counts. split; [exact H1|]. split; [exact H2|]. rewrite H3. reflexivity.
Defined.

Lemma decode_complete_records_witness :
  exists records,
    parse_bin_file (repeat x00 8 ++ concat [pack_codes record_codes sample_record] ++ [x01; x02])
    = Returns records
    /\ length records = 1.
Proof.
  destruct (decode_complete_records (repeat x00 8) [pack_codes record_codes sample_record]
              [x01; x02]) as (records & H1 & H2 & _).
  - reflexivity.
  - repeat constructor.
  - cbn [length]. lia.
  - exists records. split; [exact H1|exact H2].
Defined.

(** C5: the 8-byte preamble followed by the little-endian encoding of the
    scenario's record decodes to exactly that record; its psd is the binary64
    value 0.7; with the filter on the event is kept at threshold 0.5 and
    dropped at threshold 0.8. *)
Theorem end_to_end_scenario :
  length (pack_codes record_codes sample_record) = 50
  /\ parse_bin_file sample_file = Returns [sample_record]
  /\ compute_psd [1000%Z] [300%Z] = [0x1.6666666666666p-1%float]
  /\ psd_of sample_record = 0x1.6666666666666p-1%float
  /\ (exists s',
        load_file (with_filter init true 0.5%float) sample_file = Returns s'
        /\ events (filtered s') = [(1000%Z, 0x1.6666666666666p-1%float)]
        /\ last_psd_data s' = [0x1.6666666666666p-1%float]
        /\ Zsum (snd (last_spectrum_data s')) = 1%Z)
  /\ (exists s',
        load_file (with_filter init true 0x1.999999999999ap-1%float) sample_file = Returns s'
        /\ events (valid_stage (qlong s') (qshort s')) = [(1000%Z, 0x1.6666666666666p-1%float)]
        /\ events (filtered s') = []
        /\ last_psd_data s' = []
        /\ last_spectrum_data s' = ([], [])).
Proof.
  split; [reflexivity|]. split; [reflexivity|]. split; [reflexivity|].
  split; [reflexivity|]. split.
  - eexists. split; [vm_compute; reflexivity|]. vm_compute. repeat split.
  - eexists. split; [vm_compute; reflexivity|]. vm_compute. repeat split.
Qed.

(** C6, as stated, fails: a three-byte file is decoded to no record and the
    load returns normally. *)
Lemma short_file_raises_nothing :
  length [x01; x02; x03] < 8
  /\ parse_bin_file [x01; x02; x03] = Returns []
  /\ load_file init [x01; x02; x03] = Returns (loaded init [])
  /\ load_file init [x01; x02; x03] <> Raises FormatError.
Proof.
  split; [cbn; lia|]. split; [reflexivity|]. split; [reflexivity|]. discriminate.
Qed.

(** C6, amended: a file shorter than the 8-byte preamble decodes to the
    empty record sequence and the load returns, with an empty dataset;
    nothing is raised. *)
Theorem short_file_loads_empty (file : list byte) (self : PSDApp) :
  length file < 8 ->
  parse_bin_file file = Returns []
  /\ load_file self file = Returns (loaded self [])
  /\ qlong (loaded self []) = [] /\ qshort (loaded self []) = [].
Proof.
  intros Hlen.
  assert (Hparse : parse_bin_file file = Returns []).
  { unfold parse_bin_file, read. rewrite skipn_all2 by lia.
    apply read_loop_short. unfold record_size. cbn [length]. lia. }
  split; [exact Hparse|]. split; [|split; reflexivity].
  unfold load_file. rewrite Hparse. reflexivity.
Qed.

Lemma short_file_loads_empty_witness :
  parse_bin_file [x01; x02; x03] = Returns []
  /\ load_file init [x01; x02; x03] = Returns (loaded init []).
Proof.
  destruct (short_file_loads_empty [x01; x02; x03] init) as (H1 & H2 & _).
  - cbn [length]. lia.
  - split; [exact H1|exact H2].
Defined.

(** C7: loading a file without events after a file with one leaves the
    previous file's spectrum and PSD tables in place: [update_plots] returns
    at its first test and resets neither table. *)
Theorem tables_survive_empty_load :
  exists s1 s2,
    load_file init sample_file = Returns s1
    /\ load_file s1 empty_file = Returns s2
    /\ parse_bin_file empty_file = Returns []
    /\ qlong s2 = [] /\ qshort s2 = []
    /\ last_psd_data s2 = [0x1.6666666666666p-1%float]
    /\ length (snd (last_spectrum_data s2)) = 4096
    /\ Zsum (snd (last_spectrum_data s2)) = 1%Z.
Proof.
  eexists. eexists. split; [vm_compute; reflexivity|].
  split; [vm_compute; reflexivity|]. vm_compute. repeat split.
Qed.

(** X21: when there are events but the filter leaves none, [update_plots]
    resets both tables to empty. *)
Lemma all_filtered_resets_tables (self : PSDApp) :
  qlong self <> [] -> filtered self = ([], []) ->
  exists s', update_plots self = Returns s'
             /\ last_spectrum_data s' = ([], []) /\ last_psd_data s' = [].
Proof.
  intros Hne Hf. rewrite update_plots_returns.
  destruct (qlong self) as [|q ql] eqn:Hq; [congruence|]. cbn [length Nat.eqb].
  eexists. split; [reflexivity|]. unfold recomputed. cbn [last_spectrum_data last_psd_data].
  rewrite Hf. split; reflexivity.
Qed.

(** C8: decoding a byte buffer has one result; recomputing a second time
    returns the same application, tables included, and never touches the
    retained dataset or the settings; with events present the tables depend
    on the dataset, the flag and the threshold only. *)
Theorem decode_and_recompute_deterministic (file : list byte) (self : PSDApp) :
  (exists records,
      parse_bin_file file = Returns records
      /\ forall file', file' = file -> parse_bin_file file' = Returns records)
  /\ (exists s1,
        update_plots self = Returns s1
        /\ update_plots s1 = Returns s1
        /\ csv_file s1 = csv_file self
        /\ qlong s1 = qlong self /\ qshort s1 = qshort self
        /\ filter_toggle s1 = filter_toggle self
        /\ threshold_input s1 = threshold_input self)
  /\ (forall other s1 s2,
        qlong other = qlong self -> qshort other = qshort self ->
        filter_toggle other = filter_toggle self ->
        threshold_input other = threshold_input self ->
        qlong self <> [] ->
        update_plots self = Returns s1 -> update_plots other = Returns s2 ->
        last_spectrum_data s1 = last_spectrum_data s2
        /\ last_psd_data s1 = last_psd_data s2).
Proof.
  split.
  { destruct (parse_bin_file_total file) as (records & H & _).
    exists records. split; [exact H|]. now intros file' ->. }
  split.
  { pose proof (update_plots_returns self) as H.
    eexists. split; [exact H|].
    pose proof (update_plots_keeps _ _ H) as (Hc & Hl & Hs & Ht & Hv).
    split; [|repeat split; assumption].
    rewrite update_plots_returns.
    destruct (length (qlong self) =? 0)%nat eqn:He.
    - now rewrite He.
    - cbn [recomputed qlong]. rewrite He. reflexivity. }
  intros other s1 s2 Hl Hs Ht Hv Hne H1 H2.
  rewrite update_plots_returns in H1, H2.
  assert (Hf : filtered other = filtered self)
    by (unfold filtered; now rewrite Hl, Hs, Ht, Hv).
  rewrite Hl in H2.
  destruct (qlong self) as [|q ql]; [congruence|]. cbn [length Nat.eqb] in H1, H2.
  injection H1 as <-. injection H2 as <-.
  unfold recomputed. cbn [last_spectrum_data last_psd_data]. now rewrite Hf.
Qed.

(** C10: after any load, every psd value that reaches the threshold filter
    or the tables satisfies psd <= 1; it may be negative (qLong = 1,
    qShort = 2 gives a psd below 0). *)
Theorem psd_never_above_one (self : PSDApp) (file : list byte) :
  exists s',
    load_file self file = Returns s'
    /\ Forall (fun p => (p <=? 1)%float = true)
              (fst (valid_stage (qlong s') (qshort s')))
    /\ Forall (fun p => (p <=? 1)%float = true) (fst (filtered s'))
    /\ (psd_value 1 2 <? 0)%float = true.
Proof.
  destruct (load_file_returns self file) as (records & _ & _ & _ & Hload).
  pose proof (update_plots_returns (loaded self records)) as Hup.
  rewrite <- Hload in Hup. eexists. split; [exact Hup|].
  rewrite Hload in Hup.
  pose proof (update_plots_keeps _ _ Hup) as (_ & Hl & Hs & _ & _).
  assert (Hvalid : Forall (fun p => (p <=? 1)%float = true)
                     (fst (valid_stage (qlong (loaded self records))
                                       (qshort (loaded self records))))).
  { rewrite valid_stage_loaded. cbn [fst]. apply Forall_forall.
    intros p Hin. apply in_map_iff in Hin as (r & <- & Hr).
    apply filter_In in Hr as [_ Hr]. apply participates_iff in Hr as (Hql & Hqs & Hfin).
    apply psd_le_one; [lia|lia|exact Hfin]. }
  split; [now rewrite Hl, Hs|]. split; [|reflexivity].
  rewrite (filtered_keeps _ _ Hup). unfold filtered.
  destruct (valid_stage _ _) as [psd qv]. cbn [fst] in Hvalid.
  unfold threshold_stage. destruct (filter_toggle _); cbn [fst]; [|exact Hvalid].
  rewrite Forall_forall in *. intros p Hin. apply Hvalid.
  exact (select_incl _ _ p Hin).
Qed.

(** * Further properties of the code *)

(** ** The fields of a record *)

Local Open Scope Z_scope.

Lemma byte_value_bounds (b : byte) : 0 <= Z.of_N (Byte.to_N b) < 256.
Proof. pose proof (Byte.to_N_bounded b). lia. Qed.

Lemma le_uint_cons (b : byte) (bs : list byte) :
  Struct.le_uint (b :: bs) = Z.of_N (Byte.to_N b) + 256 * Struct.le_uint bs.
Proof. reflexivity. Qed.

Lemma le_uint_bounds (bs : list byte) :
  0 <= Struct.le_uint bs < 2 ^ (8 * Z.of_nat (length bs)).
Proof.
  induction bs as [|b bs IH].
  - cbn. lia.
  - rewrite le_uint_cons. cbn [length].
    replace (8 * Z.of_nat (S (length bs))) with (8 + 8 * Z.of_nat (length bs)) by lia.
    rewrite Z.pow_add_r by lia. change (2 ^ 8) with 256.
    pose proof (byte_value_bounds b). lia.
Qed.

Lemma to_signed_bounds (w u : Z) :
  0 < w -> 0 <= u < 2 ^ w ->
  - 2 ^ (w - 1) <= Struct.to_signed w u < 2 ^ (w - 1).
Proof.
  intros Hw Hu. unfold Struct.to_signed.
  assert (H2 : 2 ^ w = 2 * 2 ^ (w - 1)).
  { rewrite <- Z.pow_succ_r by lia. f_equal. lia. }
  destruct (Z.ltb_spec u (2 ^ (w - 1))); lia.
Qed.

Lemma size_pos (c : Struct.code) : (0 < Struct.size c)%nat.
Proof. destruct c; cbn; lia. Qed.

Lemma decode_in_range (c : Struct.code) (bs : list byte) :
  length bs = Struct.size c -> in_range c (Struct.decode c bs).
Proof.
  intros Hlen. unfold in_range, code_min, code_max, Struct.decode.
  pose proof (le_uint_bounds bs) as Hb. rewrite Hlen in Hb.
  pose proof (size_pos c).
  destruct (Struct.signed c); [|exact Hb].
  apply to_signed_bounds; [lia|exact Hb].
Qed.

Lemma unpack_codes_in_range (cs : list Struct.code) (buf : list byte) :
  length buf = Struct.codes_size cs ->
  Forall2 in_range cs (Struct.unpack_codes cs buf).
Proof.
  revert buf. induction cs as [|c cs IH]; intros buf Hlen; cbn [Struct.unpack_codes].
  - constructor.
  - unfold Struct.codes_size in Hlen. cbn [map list_sum fold_right] in Hlen.
    constructor.
    + apply decode_in_range. rewrite length_firstn. lia.
    + apply IH. rewrite length_skipn. unfold Struct.codes_size, list_sum. lia.
Qed.

(** Little-endian digits are unique. *)
Lemma le_uint_inj (bs1 bs2 : list byte) :
  length bs1 = length bs2 -> Struct.le_uint bs1 = Struct.le_uint bs2 -> bs1 = bs2.
Proof.
  revert bs2. induction bs1 as [|b1 bs1 IH]; intros [|b2 bs2] Hlen Heq;
    try discriminate; [reflexivity|].
  rewrite !le_uint_cons in Heq.
  pose proof (byte_value_bounds b1). pose proof (byte_value_bounds b2).
  assert (Hb : Z.of_N (Byte.to_N b1) = Z.of_N (Byte.to_N b2)) by lia.
  assert (Hr : Struct.le_uint bs1 = Struct.le_uint bs2) by lia.
  f_equal.
  - apply N2Z.inj in Hb.
    pose proof (Byte.of_to_N b1) as H1. rewrite Hb, Byte.of_to_N in H1. congruence.
  - apply IH; [cbn [length] in Hlen; lia|exact Hr].
Qed.

Lemma to_signed_inj (w u v : Z) :
  0 < w -> 0 <= u < 2 ^ w -> 0 <= v < 2 ^ w ->
  Struct.to_signed w u = Struct.to_signed w v -> u = v.
Proof.
  intros Hw Hu Hv. unfold Struct.to_signed.
  assert (H2 : 2 ^ w = 2 * 2 ^ (w - 1)).
  { rewrite <- Z.pow_succ_r by lia. f_equal. lia. }
  destruct (Z.ltb_spec u (2 ^ (w - 1))), (Z.ltb_spec v (2 ^ (w - 1))); lia.
Qed.

Lemma decode_inj (c : Struct.code) (bs1 bs2 : list byte) :
  length bs1 = Struct.size c -> length bs2 = Struct.size c ->
  Struct.decode c bs1 = Struct.decode c bs2 -> bs1 = bs2.
Proof.
  intros H1 H2 Heq. apply le_uint_inj; [congruence|].
  unfold Struct.decode in Heq.
  pose proof (le_uint_bounds bs1) as Hb1. pose proof (le_uint_bounds bs2) as Hb2.
  rewrite H1 in Hb1. rewrite H2 in Hb2. pose proof (size_pos c).
  destruct (Struct.signed c); [|exact Heq].
  apply to_signed_inj with (w := 8 * Z.of_nat (Struct.size c)); try assumption; lia.
Qed.

Lemma unpack_codes_inj (cs : list Struct.code) (b1 b2 : list byte) :
  length b1 = Struct.codes_size cs -> length b2 = Struct.codes_size cs ->
  Struct.unpack_codes cs b1 = Struct.unpack_codes cs b2 -> b1 = b2.
Proof.
  revert b1 b2. induction cs as [|c cs IH]; intros b1 b2 H1 H2 Heq.
  - destruct b1, b2; try discriminate. reflexivity.
  - unfold Struct.codes_size in H1, H2. cbn [map list_sum fold_right] in H1, H2.
    cbn [Struct.unpack_codes] in Heq. injection Heq as Hd Hrest.
    rewrite <- (firstn_skipn (Struct.size c) b1), <- (firstn_skipn (Struct.size c) b2).
    f_equal.
    + apply (decode_inj c); [rewrite length_firstn; lia|rewrite length_firstn; lia|exact Hd].
    + apply IH; [rewrite length_skipn; unfold Struct.codes_size, list_sum; lia
                |rewrite length_skipn; unfold Struct.codes_size, list_sum; lia|exact Hrest].
Qed.

Lemma byte_of_Z_value (z : Z) : Z.of_N (Byte.to_N (byte_of_Z z)) = z mod 256.
Proof.
  unfold byte_of_Z. pose proof (Z.mod_pos_bound z 256 ltac:(lia)) as Hm.
  destruct (Byte.of_N (Z.to_N (z mod 256))) as [b|] eqn:Hb.
  - apply Byte.to_of_N in Hb. rewrite Hb. lia.
  - apply Byte.of_N_None_iff in Hb. lia.
Qed.

Lemma le_bytes_length (n : nat) (z : Z) : length (le_bytes n z) = n.
Proof. revert z. induction n as [|n IH]; intros z; cbn [le_bytes length]; congruence. Qed.

Lemma le_uint_le_bytes (n : nat) (z : Z) :
  Struct.le_uint (le_bytes n z) = z mod 2 ^ (8 * Z.of_nat n).
Proof.
  revert z. induction n as [|n IH]; intros z.
  - cbn. now rewrite Z.mod_1_r.
  - cbn [le_bytes]. rewrite le_uint_cons, byte_of_Z_value, IH.
    replace (8 * Z.of_nat (S n)) with (8 + 8 * Z.of_nat n) by lia.
    rewrite Z.pow_add_r by lia. change (2 ^ 8) with 256.
    rewrite Z.rem_mul_r; [reflexivity|lia|]. apply Z.pow_pos_nonneg; lia.
Qed.

Lemma decode_le_bytes (c : Struct.code) (v : Z) :
  in_range c v -> Struct.decode c (le_bytes (Struct.size c) v) = v.
Proof.
  unfold in_range, code_min, code_max, Struct.decode. rewrite le_uint_le_bytes.
  pose proof (size_pos c) as Hs.
  set (w := 8 * Z.of_nat (Struct.size c)).
  assert (H2 : 2 ^ w = 2 * 2 ^ (w - 1)).
  { rewrite <- Z.pow_succ_r by (unfold w; lia). f_equal. lia. }
  assert (Hp : 0 < 2 ^ (w - 1)) by (apply Z.pow_pos_nonneg; unfold w; lia).
  destruct (Struct.signed c); intros Hv.
  - unfold Struct.to_signed. fold w.
    destruct (Z.neg_nonneg_cases v) as [Hneg|Hpos].
    + assert (Hm : v mod 2 ^ w = v + 2 ^ w).
      { symmetry. apply Z.mod_unique with (-1); lia. }
      rewrite Hm. destruct (Z.ltb_spec (v + 2 ^ w) (2 ^ (w - 1))); lia.
    + rewrite Z.mod_small by lia.
      destruct (Z.ltb_spec v (2 ^ (w - 1))); lia.
  - apply Z.mod_small. exact Hv.
Qed.

Lemma unpack_pack_codes (cs : list Struct.code) (values : list Z) :
  Forall2 in_range cs values ->
  Struct.unpack_codes cs (pack_codes cs values) = values.
Proof.
  induction 1 as [|c v cs values Hv _ IH]; cbn [pack_codes Struct.unpack_codes].
  - reflexivity.
  - rewrite <- (le_bytes_length (Struct.size c) v) at 1 3.
    rewrite firstn_app, Nat.sub_diag, firstn_all, firstn_O, app_nil_r.
    rewrite skipn_app, Nat.sub_diag, skipn_all, skipn_O. cbn [app].
    now rewrite decode_le_bytes, IH.
Qed.

Lemma pack_codes_length (cs : list Struct.code) (values : list Z) :
  length values = length cs ->
  length (pack_codes cs values) = Struct.codes_size cs.
Proof.
  revert values. induction cs as [|c cs IH]; intros [|v values] Hlen;
    try discriminate; [reflexivity|].
  cbn [pack_codes]. rewrite length_app, le_bytes_length, IH by (cbn in Hlen; lia).
  reflexivity.
Qed.

Local Close Scope Z_scope.

(** The records of a file are its complete chunks after the preamble,
    unpacked. *)
Lemma parse_bin_file_chunked (file : list byte) :
  exists chunks tail,
    skipn 8 file = concat chunks ++ tail
    /\ Forall (fun c => length c = record_size) chunks
    /\ length tail < record_size
    /\ parse_bin_file file = Returns (map (Struct.unpack_codes record_codes) chunks).
Proof.
  destruct (split_chunks (skipn 8 file)) as (chunks & tail & Heq & Hall & Htail).
  exists chunks, tail. repeat split; try assumption.
  unfold parse_bin_file, read. rewrite Heq. now apply read_loop_chunks.
Qed.

Lemma concat_chunks_length (chunks : list (list byte)) :
  Forall (fun c => length c = record_size) chunks ->
  length (concat chunks) = 50 * length chunks.
Proof.
  induction 1 as [|c chunks Hc _ IH]; [reflexivity|].
  cbn [concat length]. rewrite length_app, IH, Hc. unfold record_size. lia.
Qed.

Lemma Returns_inj {A} (a b : A) : Returns a = Returns b -> a = b.
Proof. now intros [= ->]. Qed.

(** X1: whatever the file, [parse_bin_file] returns: it yields one record
    of 21 fields for every complete 50 bytes after the first 8, that is
    (len - 8) / 50 records, none when the file is shorter than the
    preamble. *)
Theorem record_count (file : list byte) :
  exists records,
    parse_bin_file file = Returns records
    /\ length records = (length file - 8) / 50
    /\ Forall (fun r => length r = 21) records.
Proof.
  destruct (parse_bin_file_total file) as (records & H1 & H2 & H3).
  exists records. repeat split; assumption.
Qed.

(** X2: every decoded field lies in the range of its format code; in
    particular qLong and qShort are 32-bit signed and the timestamp 64-bit
    unsigned. *)
Theorem decoded_fields_in_range (file : list byte) :
  exists records,
    parse_bin_file file = Returns records
    /\ Forall (Forall2 in_range record_codes) records
    /\ Forall (fun r => (- 2 ^ 31 <= qLong_of r < 2 ^ 31)%Z
                        /\ (- 2 ^ 31 <= qShort_of r < 2 ^ 31)%Z
                        /\ (0 <= nth 6 r 0 < 2 ^ 64)%Z) records.
Proof.
  destruct (parse_bin_file_chunked file) as (chunks & tail & _ & Hall & _ & Hparse).
  exists (map (Struct.unpack_codes record_codes) chunks).
  split; [exact Hparse|].
  assert (Hr : Forall (Forall2 in_range record_codes)
                 (map (Struct.unpack_codes record_codes) chunks)).
  { apply Forall_forall. intros r Hin. apply in_map_iff in Hin as (c & <- & Hc).
    rewrite Forall_forall in Hall. apply unpack_codes_in_range. now apply Hall. }
  split; [exact Hr|].
  apply Forall_forall. intros r Hin. rewrite Forall_forall in Hr. specialize (Hr r Hin).
  unfold record_codes in Hr.
  repeat match goal with
         | H : Forall2 _ (_ :: _) _ |- _ => inversion H; subst; clear H
         | H : Forall2 _ [] _ |- _ => inversion H; subst; clear H
         end.
  unfold qLong_of, qShort_of. cbn [nth].
  repeat match goal with H : in_range _ _ |- _ => unfold in_range in H; cbn in H end.
  lia.
Qed.

(** X3: decoding loses nothing: two chunks that unpack to the same record
    tuple are the same 50 bytes. *)
Theorem chunk_decoding_injective (c1 c2 : list byte) (r : record) :
  Struct.unpack record_format c1 = Returns r ->
  Struct.unpack record_format c2 = Returns r ->
  c1 = c2.
Proof.
  unfold Struct.unpack. rewrite parse_record_format.
  destruct (Nat.eqb_spec (length c1) (Struct.codes_size record_codes)) as [H1|]; [|discriminate].
  destruct (Nat.eqb_spec (length c2) (Struct.codes_size record_codes)) as [H2|]; [|discriminate].
  intros E1 E2. apply (unpack_codes_inj record_codes); [exact H1|exact H2|].
  apply Returns_inj. now rewrite E1, E2.
Qed.

Lemma chunk_decoding_injective_witness :
  pack_codes record_codes sample_record = pack_codes record_codes sample_record.
Proof.
  apply (chunk_decoding_injective _ _ sample_record); reflexivity.
Defined.

Lemma packed_records_split (records : list record) :
  Forall (Forall2 in_range record_codes) records ->
  Forall (fun c => length c = record_size) (map (pack_codes record_codes) records)
  /\ map (Struct.unpack_codes record_codes) (map (pack_codes record_codes) records) = records.
Proof.
  induction 1 as [|r records Hr _ [IH1 IH2]]; cbn [map]; [split; [constructor|reflexivity]|].
  split.
  - constructor; [|exact IH1]. rewrite pack_codes_length; [reflexivity|].
    symmetry. apply (Forall2_length Hr).
  - now rewrite unpack_pack_codes, IH2.
Qed.

(** X4: any 8-byte preamble followed by the little-endian packing of
    in-range records decodes back to exactly those records. *)
Theorem packed_file_round_trip (preamble : list byte) (records : list record) :
  length preamble = 8 ->
  Forall (Forall2 in_range record_codes) records ->
  parse_bin_file (preamble ++ concat (map (pack_codes record_codes) records))
  = Returns records.
Proof.
  intros Hpre Hrec. destruct (packed_records_split records Hrec) as [Hlen Hmap].
  rewrite <- (app_nil_r (concat _)).
  rewrite parse_bin_file_chunks; [now rewrite Hmap|exact Hpre|exact Hlen|].
  unfold record_size. cbn. lia.
Qed.

Lemma packed_file_round_trip_witness :
  parse_bin_file (repeat x00 8 ++ concat (map (pack_codes record_codes)
                                             [sample_record; sample_record]))
  = Returns [sample_record; sample_record].
Proof.
  apply (packed_file_round_trip (repeat x00 8) [sample_record; sample_record]).
  - reflexivity.
  - repeat constructor; unfold in_range; cbn; lia.
Defined.

(** X5: appending one complete record to a file that ends on a record
    boundary appends exactly that record to the decoded sequence. *)
Theorem appending_a_record (file chunk : list byte) (records : list record) :
  8 <= length file -> (length file - 8) mod 50 = 0 -> length chunk = 50 ->
  parse_bin_file file = Returns records ->
  parse_bin_file (file ++ chunk)
  = Returns (records ++ [Struct.unpack_codes record_codes chunk]).
Proof.
  intros H8 Hmod Hchunk Hparse.
  destruct (parse_bin_file_chunked file) as (chunks & tail & Heq & Hall & Htail & Hp).
  rewrite Hp in Hparse. apply Returns_inj in Hparse. subst records.
  assert (Htl : tail = []).
  { apply length_zero_iff_nil.
    pose proof (f_equal (@length _) Heq) as Hl.
    rewrite length_skipn, length_app, (concat_chunks_length _ Hall) in Hl.
    rewrite Hl in Hmod. unfold record_size in Htail.
    rewrite Nat.add_comm, Nat.mul_comm, Nat.Div0.mod_add in Hmod.
    rewrite Nat.mod_small in Hmod by lia. exact Hmod. }
  subst tail. rewrite app_nil_r in Heq.
  rewrite <- (firstn_skipn 8 file), Heq, <- app_assoc.
  replace (concat chunks ++ chunk) with (concat (chunks ++ [chunk]) ++ [])
    by (rewrite concat_app; cbn [concat]; now rewrite !app_nil_r).
  rewrite parse_bin_file_chunks.
  - now rewrite map_app.
  - rewrite length_firstn. lia.
  - apply Forall_app. split; [exact Hall|]. now constructor.
  - unfold record_size. cbn. lia.
Qed.

Lemma appending_a_record_witness :
  parse_bin_file (sample_file ++ pack_codes record_codes sample_record)
  = Returns ([sample_record] ++ [Struct.unpack_codes record_codes
                                     (pack_codes record_codes sample_record)]).
Proof.
  apply (appending_a_record sample_file (pack_codes record_codes sample_record)
           [sample_record]); reflexivity || (cbn; lia).
Defined.

(** ** [read_qlong_qshort] on any table *)

(** One row either leaves the two lists alone or appends one accepted pair. *)
Lemma read_row_appends (d : Csv.dict) (ql qs ql' qs' : list Z) :
  read_row d ql qs = Returns (ql', qs') ->
  (ql' = ql /\ qs' = qs)
  \/ exists a b, (a > 0)%Z /\ (b >= 0)%Z /\ ql' = ql ++ [a] /\ qs' = qs ++ [b].
Proof.
  unfold read_row, bind.
  destruct (getitem d "qLong") as [v|]; [|discriminate].
  destruct (int_ v) as [a|]; [|discriminate].
  destruct (getitem d "qShort") as [w|]; [|discriminate].
  destruct (int_ w) as [b|]; [|discriminate].
  destruct (Z.gtb_spec a 0); destruct (Z.geb_spec b 0); cbn [andb];
    intros [= <- <-]; auto.
  right. exists a, b. repeat split; lia.
Qed.

Lemma read_rows_invariant (ds : list Csv.dict) (ql qs ql' qs' : list Z) :
  read_rows ds ql qs = Returns (ql', qs') ->
  length ql = length qs -> Forall (fun a => (a > 0)%Z) ql -> Forall (fun b => (b >= 0)%Z) qs ->
  length ql' = length qs'
  /\ Forall (fun a => (a > 0)%Z) ql' /\ Forall (fun b => (b >= 0)%Z) qs'.
Proof.
  revert ql qs. induction ds as [|d ds IH]; intros ql qs; cbn [read_rows].
  - intros [= <- <-]. auto.
  - destruct (read_row d ql qs) as [[ql1 qs1]|e] eqn:Hrow.
    + intros Hrest Hlen Hql Hqs.
      apply read_row_appends in Hrow as [[-> ->]|(a & b & Ha & Hb & -> & ->)].
      * now apply (IH ql qs).
      * apply (IH _ _ Hrest).
        -- rewrite !length_app. cbn [length]. lia.
        -- apply Forall_app. split; [exact Hql|]. now constructor.
        -- apply Forall_app. split; [exact Hqs|]. now constructor.
    + destruct e; try discriminate; apply IH.
Qed.

(** X7: whatever table [read_qlong_qshort] reads, the two arrays it returns
    have the same length, every qLong is positive and every qShort is
    non-negative. *)
Theorem read_qlong_qshort_invariants (csv_file : Csv.table) (ql qs : list Z) :
  read_qlong_qshort csv_file = Returns (ql, qs) ->
  length ql = length qs
  /\ Forall (fun a => (a > 0)%Z) ql
  /\ Forall (fun b => (b >= 0)%Z) qs.
Proof.
  unfold read_qlong_qshort. intros H.
  apply (read_rows_invariant _ [] [] ql qs H); [reflexivity|constructor|constructor].
Qed.

Lemma read_qlong_qshort_invariants_witness :
  length [1000%Z] = length [300%Z]
  /\ Forall (fun a => (a > 0)%Z) [1000%Z]
  /\ Forall (fun b => (b >= 0)%Z) [300%Z].
Proof.
  apply (read_qlong_qshort_invariants (save_to_csv [sample_record])). reflexivity.
Defined.

(** X6: reading back the file [save_to_csv] wrote returns the qLong and
    qShort columns of the records with qLong > 0 and qShort >= 0, in record
    order. *)
Theorem csv_round_trip (records : list record) :
  Forall (fun r => length r = 21) records ->
  read_qlong_qshort (save_to_csv records) =
  Returns (map qLong_of (filter positive_charges records),
           map qShort_of (filter positive_charges records)).
Proof. exact (read_saved_csv records). Qed.

Lemma csv_round_trip_witness :
  read_qlong_qshort (save_to_csv [sample_record; repeat 0%Z 21]) =
  Returns (map qLong_of (filter positive_charges [sample_record; repeat 0%Z 21]),
           map qShort_of (filter positive_charges [sample_record; repeat 0%Z 21])).
Proof.
  apply (csv_round_trip [sample_record; repeat 0%Z 21]). repeat constructor.
Defined.

Lemma get_absent (d : Csv.dict) (key : string) :
  ~ In key (map fst d) -> Csv.get d key = None.
Proof.
  unfold Csv.get. generalize (@None (option string)) at 1 2.
  induction d as [|[k v] d IH]; intros acc Hnot; cbn [fold_left]; [reflexivity|].
  cbn [map In fst snd] in *.
  destruct (String.eqb_spec k key) as [->|_]; [tauto|].
  apply IH. tauto.
Qed.

Lemma make_dict_keys (fieldnames : list string) (r : Csv.row) (k : string) :
  In k (map fst (Csv.make_dict fieldnames r)) -> In k fieldnames.
Proof.
  unfold Csv.make_dict. intros Hin. apply in_map_iff in Hin as ([k' v] & <- & Hin).
  now apply in_combine_l in Hin.
Qed.

Lemma read_rows_all_skipped (ds : list Csv.dict) :
  Forall (fun d => Csv.get d "qLong" = None) ds ->
  read_rows ds [] [] = Returns ([], []).
Proof.
  induction 1 as [|d ds Hd _ IH]; cbn [read_rows]; [reflexivity|].
  unfold read_row, getitem. rewrite Hd. cbn [bind]. exact IH.
Qed.

(** X8: a table whose header has no [qLong] column yields two empty
    arrays: every row raises [KeyError], which the loop swallows. *)
Theorem missing_qLong_column (fieldnames : list string) (rows : list Csv.row) :
  ~ In "qLong"%string fieldnames ->
  read_qlong_qshort (fieldnames :: rows) = Returns ([], []).
Proof.
  intros Hnot. unfold read_qlong_qshort, Csv.dict_rows.
  apply read_rows_all_skipped, Forall_forall. intros d Hin.
  apply in_map_iff in Hin as (r & <- & _).
  apply get_absent. intros Hk. now apply make_dict_keys in Hk.
Qed.

Lemma missing_qLong_column_witness :
  read_qlong_qshort (["energy"; "qShort"]%string :: [["12"; "3"]%string]) = Returns ([], []).
Proof.
  apply (missing_qLong_column ["energy"; "qShort"]%string [["12"; "3"]%string]).
  cbn. intros [H|[H|[]]]; discriminate.
Defined.

Lemma get_qLong_short_row (r : Csv.row) :
  r <> [] -> length r <= 11 ->
  Csv.get (Csv.make_dict header r) "qLong" = Some None.
Proof.
  intros Hne Hlen.
  destruct r as [|v0 r]; [congruence|].
  do 11 (destruct r as [|? r]; [reflexivity|]).
  cbn [length] in Hlen. lia.
Qed.

(** X9: with the header of [save_to_csv], a first data row that is not
    empty but has fewer than 12 fields makes [read_qlong_qshort] raise
    [TypeError]: the missing field reads as [None], and [int(None)] is not
    among the exceptions the loop catches. *)
Theorem short_row_raises_TypeError (r : Csv.row) (rows : list Csv.row) :
  r <> [] -> length r <= 11 ->
  read_qlong_qshort (header :: r :: rows) = Raises TypeError.
Proof.
  intros Hne Hlen. unfold read_qlong_qshort, Csv.dict_rows.
  pose proof (get_qLong_short_row r Hne Hlen) as Hget.
  destruct r as [|v r']; [congruence|]. cbn [filter map read_rows].
  unfold read_row, getitem. rewrite Hget. reflexivity.
Qed.

Lemma short_row_raises_TypeError_witness :
  read_qlong_qshort (header :: ["1"; "2"; "3"]%string :: []) = Raises TypeError.
Proof.
  apply (short_row_raises_TypeError ["1"; "2"; "3"]%string []).
  - discriminate.
  - cbn. lia.
Defined.

Local Open Scope float_scope.

Lemma SFleb_ltb_trans (x y z : spec_float) :
  SFleb x y = true -> SFltb y z = true -> SFltb x z = true.
Proof.
  unfold SFleb, SFltb.
  destruct x as [sx|sx| |sx mx ex], y as [sy|sy| |sy my ey], z as [sz|sz| |sz mz ez];
    try destruct sx; try destruct sy; try destruct sz; cbn; intros H1 H2;
    try discriminate; try reflexivity; cmp_cases.
Qed.

Lemma SFltb_leb_trans (x y z : spec_float) :
  SFltb x y = true -> SFleb y z = true -> SFltb x z = true.
Proof.
  unfold SFleb, SFltb.
  destruct x as [sx|sx| |sx mx ex], y as [sy|sy| |sy my ey], z as [sz|sz| |sz mz ez];
    try destruct sx; try destruct sy; try destruct sz; cbn; intros H1 H2;
    try discriminate; try reflexivity; cmp_cases.
Qed.

Lemma SFltb_not_leb (x y : spec_float) :
  SFltb x y = true -> SFleb y x = false.
Proof.
  unfold SFleb, SFltb.
  destruct x as [sx|sx| |sx mx ex], y as [sy|sy| |sy my ey];
    try destruct sx; try destruct sy; cbn; intros H1;
    try discriminate; try reflexivity; cmp_cases.
Qed.

Lemma leb_ltb_trans x y z : (x <=? y) = true -> (y <? z) = true -> (x <? z) = true.
Proof. rewrite leb_spec, !ltb_spec. apply SFleb_ltb_trans. Qed.

Lemma ltb_leb_trans x y z : (x <? y) = true -> (y <=? z) = true -> (x <? z) = true.
Proof. rewrite leb_spec, !ltb_spec. apply SFltb_leb_trans. Qed.

Lemma ltb_not_leb x y : (x <? y) = true -> (y <=? x) = false.
Proof. rewrite leb_spec, ltb_spec. apply SFltb_not_leb. Qed.

Local Close Scope float_scope.

Lemma filter_length_mono {A} (p q : A -> bool) (l : list A) :
  (forall x, p x = true -> q x = true) ->
  length (filter p l) <= length (filter q l).
Proof.
  intros Hpq. induction l as [|x l IH]; cbn [filter]; [lia|].
  specialize (Hpq x). destruct (p x), (q x); cbn [length]; try lia.
  all: discriminate (Hpq eq_refl).
Qed.

Lemma filter_none {A} (p : A -> bool) (l : list A) :
  (forall x, In x l -> p x = false) -> filter p l = [].
Proof.
  induction l as [|x l IH]; intros H; cbn [filter]; [reflexivity|].
  rewrite (H x (or_introl eq_refl)). apply IH. intros y Hy. apply H. now right.
Qed.

(** X10: raising the threshold can only remove events: what passes the
    filter at [t2] passes it at every [t1 <= t2]. *)
Theorem raising_threshold_only_removes (psd : list float) (qlong_valid : list Z)
  (t1 t2 : float) :
  (t1 <=? t2)%float = true ->
  incl (events (threshold_stage true t2 psd qlong_valid))
       (events (threshold_stage true t1 psd qlong_valid))
  /\ length (events (threshold_stage true t2 psd qlong_valid))
     <= length (events (threshold_stage true t1 psd qlong_valid)).
Proof.
  intros Hle. rewrite !threshold_stage_events. split.
  - intros e He. apply filter_In in He as [Hin Ht]. apply filter_In.
    split; [exact Hin|]. now apply leb_ltb_trans with t2.
  - apply filter_length_mono. intros e Ht. now apply leb_ltb_trans with t2.
Qed.

Lemma raising_threshold_only_removes_witness :
  incl (events (threshold_stage true 0.5%float [0.25; 0.75; 1]%float [10; 20; 30]%Z))
       (events (threshold_stage true 0.25%float [0.25; 0.75; 1]%float [10; 20; 30]%Z)).
Proof.
  apply (raising_threshold_only_removes [0.25; 0.75; 1]%float [10; 20; 30]%Z
           0.25%float 0.5%float).
  reflexivity.
Defined.

Lemma update_plots_data (self : PSDApp) :
  qlong self <> [] -> update_plots self = Returns (recomputed self).
Proof.
  intros Hne. rewrite update_plots_returns.
  destruct (qlong self); [congruence|reflexivity].
Qed.

(** X11: with the filter on and the threshold at 1 or above, no event of
    any loaded file passes, and both tables are reset when the file has
    events. *)
Theorem threshold_one_passes_nothing (self : PSDApp) (file : list byte) :
  filter_toggle self = true -> (1 <=? threshold_input self)%float = true ->
  exists s',
    load_file self file = Returns s'
    /\ filtered s' = ([], [])
    /\ (qlong s' <> [] -> last_spectrum_data s' = ([], []) /\ last_psd_data s' = []).
Proof.
  intros Hon Hone.
  destruct (load_file_returns self file) as (records & _ & _ & _ & Hload).
  pose proof (update_plots_returns (loaded self records)) as Hup.
  rewrite <- Hload in Hup. eexists. split; [exact Hup|]. rewrite Hload in Hup.
  pose proof (update_plots_keeps _ _ Hup) as (_ & Hl & _).
  assert (Hf : filtered (loaded self records) = ([], [])).
  { unfold filtered. rewrite valid_stage_loaded.
    cbn [loaded filter_toggle threshold_input]. rewrite Hon.
    rewrite threshold_stage_map.
    rewrite filter_none; [reflexivity|].
    intros r Hr. apply filter_In in Hr as [_ Hr].
    apply participates_iff in Hr as (Hql & Hqs & Hfin).
    destruct (threshold_input self <? psd_of r)%float eqn:Hlt; [|reflexivity].
    pose proof (psd_le_one (qShort_of r) (qLong_of r) ltac:(lia) ltac:(lia) Hfin) as Hp.
    pose proof (ltb_leb_trans _ _ _ Hlt Hp) as H1.
    apply ltb_not_leb in H1. congruence. }
  split; [now rewrite (filtered_keeps _ _ Hup)|].
  rewrite Hl. intros Hne.
  destruct (qlong (loaded self records)) as [|q ql] eqn:Hq; [congruence|].
  cbn [length Nat.eqb]. unfold recomputed. cbn [last_spectrum_data last_psd_data].
  rewrite Hf. split; reflexivity.
Qed.

Lemma threshold_one_passes_nothing_witness :
  exists s',
    load_file (with_filter init true 1%float) sample_file = Returns s'
    /\ filtered s' = ([], []).
Proof.
  destruct (threshold_one_passes_nothing (with_filter init true 1%float) sample_file)
    as (s' & H1 & H2 & _); [reflexivity|reflexivity|].
  exists s'. split; assumption.
Defined.

(** X12: [load_file] never raises; the dataset it leaves depends on the
    file alone, not on what was loaded before, and the filter settings are
    kept. *)
Theorem load_replaces_dataset (s1 s2 : PSDApp) (file : list byte) :
  exists s1' s2',
    load_file s1 file = Returns s1'
    /\ load_file s2 file = Returns s2'
    /\ csv_file s1' = csv_file s2'
    /\ qlong s1' = qlong s2' /\ qshort s1' = qshort s2'
    /\ filter_toggle s1' = filter_toggle s1
    /\ threshold_input s1' = threshold_input s1.
Proof.
  destruct (parse_bin_file_total file) as (records & Hparse & Hlen & _).
  assert (Hload : forall s, load_file s file = update_plots (loaded s records)).
  { intros s. unfold load_file. rewrite Hparse. cbn [bind].
    now rewrite (read_saved_csv records Hlen). }
  pose proof (update_plots_returns (loaded s1 records)) as H1.
  pose proof (update_plots_returns (loaded s2 records)) as H2.
  pose proof (update_plots_keeps _ _ H1) as (Hc1 & Hl1 & Hs1 & Ht1 & Hv1).
  pose proof (update_plots_keeps _ _ H2) as (Hc2 & Hl2 & Hs2 & Ht2 & Hv2).
  rewrite <- Hload in H1, H2.
  eexists. eexists. split; [exact H1|]. split; [exact H2|].
  rewrite Hc1, Hc2, Hl1, Hl2, Hs1, Hs2, Ht1, Hv1. repeat split.
Qed.

Lemma length_bin_centers : length (bin_centers bin_edges) = 4096.
Proof. rewrite bin_edges_nf_eq. vm_compute. reflexivity. Qed.

Lemma any_bin_centers : ndarray_any (bin_centers bin_edges) = true.
Proof. rewrite bin_edges_nf_eq. vm_compute. reflexivity. Qed.

Lemma spectrum_counts_length (a : list float) :
  length (Np.diff (Np.search_sorted_inclusive a bin_edges)) = 4096.
Proof. now rewrite diff_length, search_sorted_inclusive_length, length_bin_edges. Qed.

Lemma spectrum_counts_nonneg (a : list float) :
  Forall (fun n => (0 <= n)%Z) (Np.diff (Np.search_sorted_inclusive a bin_edges)).
Proof.
  apply Forall_forall. intros n Hin.
  apply (In_nth _ _ 0%Z) in Hin as (i & Hi & <-).
  rewrite spectrum_counts_length in Hi.
  rewrite histogram_bin.
  - apply count_nonneg.
  - exact monotonic_bin_edges.
  - exact no_nan_bin_edges.
  - rewrite length_bin_edges. lia.
Qed.

Lemma spectrum_counts_sum (a : list float) :
  (0 <= Zsum (Np.diff (Np.search_sorted_inclusive a bin_edges)) <= Z.of_nat (length a))%Z.
Proof.
  rewrite histogram_sum.
  - split; [apply count_nonneg|apply count_le_length].
  - exact monotonic_bin_edges.
  - exact no_nan_bin_edges.
  - rewrite length_bin_edges. lia.
Qed.

Lemma spectrum_table_nonempty (qlong_filtered : list Z) :
  qlong_filtered <> [] ->
  spectrum_table qlong_filtered =
  (bin_centers bin_edges,
   Np.diff (Np.search_sorted_inclusive (map Np.of_int qlong_filtered) bin_edges)).
Proof.
  intros Hf. unfold spectrum_table.
  destruct qlong_filtered as [|q qf]; [congruence|reflexivity].
Qed.

(** X13: when some event passes the filter, the spectrum table has the
    4096 bin centers and 4096 counts, no count is negative and the counts add
    up to at most the number of events that passed. *)
Theorem spectrum_table_shape (self s' : PSDApp) :
  update_plots self = Returns s' ->
  qlong self <> [] -> snd (filtered self) <> [] ->
  fst (last_spectrum_data s') = bin_centers bin_edges
  /\ length (fst (last_spectrum_data s')) = 4096
  /\ length (snd (last_spectrum_data s')) = 4096
  /\ Forall (fun n => (0 <= n)%Z) (snd (last_spectrum_data s'))
  /\ (0 <= Zsum (snd (last_spectrum_data s')) <= Z.of_nat (length (snd (filtered self))))%Z.
Proof.
  intros Hup Hne Hf. rewrite (update_plots_data self Hne) in Hup.
  apply Returns_inj in Hup. subst s'.
  unfold recomputed. cbn [last_spectrum_data].
  rewrite (spectrum_table_nonempty _ Hf). cbn [fst snd].
  split; [reflexivity|]. split; [exact length_bin_centers|].
  split; [apply spectrum_counts_length|]. split; [apply spectrum_counts_nonneg|].
  pose proof (spectrum_counts_sum (map Np.of_int (snd (filtered self)))) as H.
  rewrite length_map in H. exact H.
Qed.

Lemma spectrum_table_shape_witness :
  length (snd (last_spectrum_data sample_recomputed)) = 4096.
Proof.
  refine (proj1 (proj2 (proj2
    (spectrum_table_shape (loaded init [sample_record]) sample_recomputed _ _ _)))).
  - apply update_plots_data. discriminate.
  - discriminate.
  - vm_compute. discriminate.
Defined.

(** X14: [save_spectrum_data] raises [AttributeError] instead of returning
    when there is no spectrum: on a fresh application, and after a recompute
    in which no event passed the filter. *)
Theorem save_spectrum_without_data_raises (file_path : string) :
  save_spectrum_data init file_path = AttributeError
  /\ forall self s',
      update_plots self = Returns s' ->
      qlong self <> [] -> snd (filtered self) = [] ->
      save_spectrum_data s' file_path = AttributeError.
Proof.
  split; [reflexivity|]. intros self s' Hup Hne Hf.
  rewrite (update_plots_data self Hne) in Hup. apply Returns_inj in Hup. subst s'.
  unfold save_spectrum_data, recomputed. cbn [last_spectrum_data].
  unfold spectrum_table. rewrite Hf. reflexivity.
Qed.

(** X15: after a recompute in which some event passed, [save_spectrum_data]
    writes the header and 4096 rows, one (bin center, count) pair per bin;
    it writes nothing when the dialog is cancelled. *)
Theorem save_spectrum_writes_every_bin (self s' : PSDApp) (file_path : string) :
  update_plots self = Returns s' ->
  qlong self <> [] -> snd (filtered self) <> [] ->
  save_spectrum_data s' EmptyString = NotSaved
  /\ (file_path <> EmptyString ->
      exists rows,
        save_spectrum_data s' file_path = Saved ([Str "BinCenter"; Str "Count"] :: rows)
        /\ length rows = 4096
        /\ rows = map (fun xy => [Num (fst xy); Cnt (snd xy)])
                      (combine (bin_centers bin_edges) (snd (last_spectrum_data s')))).
Proof.
  intros Hup Hne Hf. rewrite (update_plots_data self Hne) in Hup.
  apply Returns_inj in Hup. subst s'.
  unfold save_spectrum_data, recomputed. cbn [last_spectrum_data].
  rewrite (spectrum_table_nonempty _ Hf). cbn [fst snd].
  rewrite any_bin_centers. cbn [negb].
  pose proof length_bin_centers as Hlc.
  destruct (bin_centers bin_edges) as [|c cs]; [discriminate Hlc|].
  split; [reflexivity|]. intros Hp.
  destruct (String.eqb_spec file_path "") as [->|_]; [congruence|].
  eexists. split; [reflexivity|]. split; [|reflexivity].
  rewrite length_map, length_combine, spectrum_counts_length, Hlc. reflexivity.
Qed.

Lemma save_spectrum_writes_every_bin_witness :
  save_spectrum_data sample_recomputed EmptyString = NotSaved.
Proof.
  refine (proj1 (save_spectrum_writes_every_bin (loaded init [sample_record])
                   sample_recomputed "spectrum_data.csv" _ _ _)).
  - apply update_plots_data. discriminate.
  - discriminate.
  - vm_compute. discriminate.
Defined.

(** X16: after a recompute with events, [save_psd_data] writes the header
    and one row per PSD value that passed the filter, and nothing when none
    passed or when the dialog is cancelled; it never raises. *)
Theorem save_psd_writes_filtered_values (self s' : PSDApp) (file_path : string) :
  update_plots self = Returns s' -> qlong self <> [] ->
  save_psd_data s' file_path =
  if (length (fst (filtered self)) =? 0)%nat then NotSaved
  else if String.eqb file_path "" then NotSaved
  else Saved ([Str "PSD"] :: map (fun v => [Num v]) (fst (filtered self))).
Proof.
  intros Hup Hne. rewrite (update_plots_data self Hne) in Hup.
  apply Returns_inj in Hup. subst s'.
  unfold save_psd_data, recomputed. cbn [last_psd_data]. unfold psd_stage.
  destruct (fst (filtered self)) as [|p ps]; reflexivity.
Qed.

Lemma save_psd_writes_filtered_values_witness :
  save_psd_data sample_recomputed "psd_data.csv" =
  Saved [[Str "PSD"]; [Num 0x1.6666666666666p-1%float]].
Proof.
  rewrite (save_psd_writes_filtered_values (loaded init [sample_record]) sample_recomputed
             "psd_data.csv").
  - reflexivity.
  - apply update_plots_data. discriminate.
  - discriminate.
Defined.

Local Open Scope Z_scope.

(** ** Binary64 arithmetic: no overflow on the load path *)

(** [shr_fexp] whatever the exponent: the exponent moves up to the target
    when it is below it, and the mantissa is divided accordingly. *)
Lemma shr_fexp_gen m e l :
  0 <= m ->
  let '(r, e') := shr_fexp prec emax m e l in
  e' = Z.max e (fexp prec emax (Zdigits2 m + e)) /\ shr_m r = m / 2 ^ (e' - e).
Proof.
  intros Hm. unfold shr_fexp, shr.
  destruct (fexp prec emax (Zdigits2 m + e) - e) as [|p|p] eqn:Hn.
  - split; [lia|]. replace (e - e) with 0 by lia.
    rewrite shr_record_of_loc_m, Z.pow_0_r, Z.div_1_r. reflexivity.
  - split; [lia|]. rewrite iter_shr_1_m by (rewrite shr_record_of_loc_m; lia).
    rewrite shr_record_of_loc_m. f_equal. f_equal. lia.
  - split; [lia|]. replace (e - e) with 0 by lia.
    rewrite shr_record_of_loc_m, Z.pow_0_r, Z.div_1_r. reflexivity.
Qed.

(** A value below [2^B] with [B] in range rounds to zero or to a finite
    number below [2^(B+1)]. *)
Lemma binary_round_aux_no_overflow s m e l B :
  0 <= m -> e <= 971 -> e <= B -> Zdigits2 m + e <= B -> -1074 <= B <= 1023 ->
  binary_round_aux prec emax s m e l = S754_zero s
  \/ exists m' e', binary_round_aux prec emax s m e l = S754_finite s m' e'
                   /\ Z.pos (digits2_pos m') + e' <= B + 1.
Proof.
  intros Hm He HeB HD HB. unfold binary_round_aux.
  pose proof (shr_fexp_gen m e l Hm) as H1.
  destruct (shr_fexp prec emax m e l) as [r1 e1]. destruct H1 as [He1 Hm1].
  rewrite fexp_eq in He1.
  pose proof (Zdigits2_nonneg m) as Hdm.
  assert (He1B : e <= e1 <= B) by lia.
  assert (He1' : e1 <= 971) by lia.
  assert (Hm1b : 0 <= shr_m r1 < 2 ^ (B - e1)).
  { rewrite Hm1. split; [apply Z.div_pos; [lia|apply Z.pow_pos_nonneg; lia]|].
    apply Z.div_lt_upper_bound; [apply Z.pow_pos_nonneg; lia|].
    rewrite <- Z.pow_add_r by lia.
    apply Z.lt_le_trans with (2 ^ Zdigits2 m); [now apply Zdigits2_upper|].
    apply Z.pow_le_mono_r; lia. }
  pose proof (round_nearest_even_bounds (shr_m r1) (loc_of_shr_record r1)) as Hr.
  set (mr := round_nearest_even _ _) in *.
  assert (Hmrb : 0 <= mr < 2 ^ (B - e1 + 1)).
  { replace (B - e1 + 1) with (Z.succ (B - e1)) by lia.
    rewrite Z.pow_succ_r by lia. lia. }
  assert (Hdr : Zdigits2 mr <= B - e1 + 1) by (apply Zdigits2_le; lia).
  pose proof (Zdigits2_nonneg mr) as Hdr0.
  pose proof (shr_fexp_gen mr e1 loc_Exact ltac:(lia)) as H2.
  destruct (shr_fexp prec emax mr e1 loc_Exact) as [r2 e2]. destruct H2 as [He2 Hm2].
  rewrite fexp_eq in He2.
  assert (He2B : e1 <= e2 <= B) by lia.
  assert (Hm2b : 0 <= shr_m r2 < 2 ^ (B + 1 - e2)).
  { rewrite Hm2. split; [apply Z.div_pos; [lia|apply Z.pow_pos_nonneg; lia]|].
    apply Z.div_lt_upper_bound; [apply Z.pow_pos_nonneg; lia|].
    rewrite <- Z.pow_add_r by lia.
    replace (e2 - e1 + (B + 1 - e2)) with (B - e1 + 1) by lia. lia. }
  destruct (shr_m r2) as [|p|p]; [now left| |lia].
  right. replace (e2 <=? emax - prec) with true
    by (symmetry; apply Z.leb_le; unfold emax, prec; lia).
  exists p, e2. split; [reflexivity|].
  enough (Zdigits2 (Z.pos p) <= B + 1 - e2) by (cbn [Zdigits2] in *; lia).
  apply Zdigits2_le; lia.
Qed.

(** A normal value of at least [2^(D-1)] does not round below it. *)
Lemma binary_round_aux_lower s m e l :
  0 < m -> e <= fexp prec emax (Zdigits2 m + e) -> -1021 <= Zdigits2 m + e ->
  binary_round_aux prec emax s m e l = S754_infinity s
  \/ exists m' e', binary_round_aux prec emax s m e l = S754_finite s m' e'
                   /\ Zdigits2 m + e <= Z.pos (digits2_pos m') + e'.
Proof.
  intros Hm He HD. unfold binary_round_aux.
  pose proof (shr_fexp_gen m e l ltac:(lia)) as H1.
  destruct (shr_fexp prec emax m e l) as [r1 e1]. destruct H1 as [He1 Hm1].
  rewrite fexp_eq in He, He1.
  destruct m as [|pm|pm]; try lia. cbn [Zdigits2] in *.
  pose proof (digits2_pos_bounds pm) as [Hlo _].
  set (dm := Z.pos (digits2_pos pm)) in *.
  assert (He1v : e1 = dm + e - 53) by lia.
  assert (Hm1b : 2 ^ 52 <= shr_m r1).
  { rewrite Hm1. apply Z.div_le_lower_bound; [apply Z.pow_pos_nonneg; lia|].
    rewrite <- Z.pow_add_r by lia.
    replace (e1 - e + 52) with (dm - 1) by lia. exact Hlo. }
  pose proof (round_nearest_even_bounds (shr_m r1) (loc_of_shr_record r1)) as Hr.
  set (mr := round_nearest_even _ _) in *.
  assert (Hdr : 52 < Zdigits2 mr) by (apply Zdigits2_ge; lia).
  pose proof (shr_fexp_gen mr e1 loc_Exact ltac:(lia)) as H2.
  destruct (shr_fexp prec emax mr e1 loc_Exact) as [r2 e2]. destruct H2 as [He2 Hm2].
  rewrite fexp_eq in He2.
  assert (He2v : e2 = Zdigits2 mr + e1 - 53) by lia.
  assert (Hmrlo : 2 ^ (Zdigits2 mr - 1) <= mr).
  { destruct mr as [|q|q]; try lia. apply digits2_pos_bounds. }
  assert (Hm2b : 2 ^ 52 <= shr_m r2).
  { rewrite Hm2. apply Z.div_le_lower_bound; [apply Z.pow_pos_nonneg; lia|].
    rewrite <- Z.pow_add_r by lia.
    replace (e2 - e1 + 52) with (Zdigits2 mr - 1) by lia. exact Hmrlo. }
  assert (H52 : 0 < 2 ^ 52) by (apply Z.pow_pos_nonneg; lia).
  destruct (shr_m r2) as [|p|p] eqn:Hp; try lia.
  destruct (e2 <=? emax - prec); [right|now left].
  exists p, e2. split; [reflexivity|].
  assert (Hdp : 52 < Zdigits2 (Z.pos p)) by (apply Zdigits2_ge; lia).
  cbn [Zdigits2] in Hdp. lia.
Qed.

(** What [binary_round] hands to [binary_round_aux]. *)
Lemma shl_align_fexp_spec p e :
  exists mz ez,
    shl_align p e (fexp prec emax (Z.pos (digits2_pos p) + e)) = (mz, ez)
    /\ ez <= e
    /\ Z.pos (digits2_pos mz) + ez = Z.pos (digits2_pos p) + e
    /\ ez <= fexp prec emax (Z.pos (digits2_pos mz) + ez).
Proof.
  unfold shl_align.
  set (t := fexp prec emax (Z.pos (digits2_pos p) + e)).
  destruct (t - e) as [|d|d] eqn:Ht.
  - exists p, e. repeat split; fold t; lia.
  - exists p, e. repeat split; fold t; lia.
  - pose proof (Zdigits2_mul_pow2 (Z.pos p) (Z.pos d) ltac:(lia) ltac:(lia)) as Hdig.
    rewrite <- iter_xO_pow in Hdig. cbn [Zdigits2] in Hdig.
    exists (Pos.iter xO p d), t. split; [reflexivity|]. split; [lia|].
    rewrite Hdig. split; [lia|].
    replace (Z.pos (digits2_pos p) + Z.pos d + t) with (Z.pos (digits2_pos p) + e) by lia.
    fold t. lia.
Qed.

Lemma to_Z_of_Z_small z : 0 <= z < 2 ^ 63 -> Uint63.to_Z (Uint63.of_Z z) = z.
Proof.
  intros Hz. rewrite Uint63.of_Z_spec. apply Z.mod_small.
  replace wB with (2 ^ 63) by reflexivity. exact Hz.
Qed.

Lemma of_int_positive z :
  0 < z < 2 ^ 63 -> finite_within 1 64 (Prim2SF (Np.of_int z)).
Proof.
  intros Hz. unfold Np.of_int.
  replace (z <? 0) with false by (symmetry; apply Z.ltb_ge; lia).
  rewrite of_uint63_spec, to_Z_of_Z_small by lia.
  destruct z as [|p|p]; try lia. cbn [binary_normalize]. unfold binary_round.
  destruct (shl_align_fexp_spec p 0) as (mz & ez & -> & Hez & Hd & Hc).
  assert (Hdp : 1 <= Z.pos (digits2_pos p) <= 63).
  { split; [lia|]. apply (Zdigits2_le (Z.pos p) 63); lia. }
  destruct (binary_round_aux_no_overflow false (Z.pos mz) ez loc_Exact 63)
    as [Hz0|(m1 & e1 & H1 & Hb1)]; cbn [Zdigits2]; try lia;
  destruct (binary_round_aux_lower false (Z.pos mz) ez loc_Exact)
    as [Hinf|(m2 & e2 & H2 & Hb2)]; cbn [Zdigits2]; try lia; try exact Hc;
    try congruence.
  rewrite H1 in H2. injection H2 as <- <-.
  exists m1, e1. split; [exact H1|]. cbn [Zdigits2] in Hb2. lia.
Qed.

Lemma of_int_zero : Prim2SF (Np.of_int 0) = S754_zero false.
Proof. reflexivity. Qed.

Lemma SFdiv_magnitude x y :
  finite_within 1 64 x -> finite_within 1 64 y ->
  zero_or_below 65 (SFdiv prec emax x y).
Proof.
  intros (ma & ea & -> & Ha) (mb & eb & -> & Hb).
  cbn [SFdiv xorb]. unfold SFdiv_core_binary. cbn [Zdigits2].
  set (da := Z.pos (digits2_pos ma)) in *. set (db := Z.pos (digits2_pos mb)) in *.
  set (e' := Z.min (fexp prec emax (da + ea - (db + eb))) (ea - eb)).
  set (s := ea - eb - e').
  assert (He' : e' <= 10) by (unfold e'; rewrite fexp_eq; lia).
  assert (Hs : 0 <= s) by (unfold s, e'; lia).
  set (m' := match s with 0 => Z.pos ma | Z.pos _ => Z.shiftl (Z.pos ma) s | Z.neg _ => 0 end).
  assert (Hm' : m' = Z.pos ma * 2 ^ s).
  { unfold m'. destruct s as [|ps|ps] eqn:Es.
    - rewrite Z.pow_0_r. lia.
    - now rewrite Z.shiftl_mul_pow2 by lia.
    - lia. }
  pose proof (digits2_pos_bounds ma) as [_ Hma]. fold da in Hma.
  pose proof (digits2_pos_bounds mb) as [Hmb _]. fold db in Hmb.
  assert (H2s : 0 < 2 ^ s) by (apply Z.pow_pos_nonneg; lia).
  assert (Hm'b : 0 <= m' < 2 ^ (da + s)).
  { rewrite Hm', Z.pow_add_r by (unfold da; lia). split; [lia|].
    apply Z.mul_lt_mono_pos_r; lia. }
  pose proof (Z.div_pos m' (Z.pos mb) ltac:(lia) ltac:(lia)) as Hq0.
  set (k := Z.max 0 (da + s - db + 1)).
  assert (Hqk : m' / Z.pos mb < 2 ^ k).
  { apply Z.div_lt_upper_bound; [lia|].
    apply Z.lt_le_trans with (2 ^ (da + s)); [lia|].
    apply Z.le_trans with (2 ^ (db - 1) * 2 ^ k).
    - rewrite <- Z.pow_add_r by (unfold db, k; lia).
      apply Z.pow_le_mono_r; unfold k; lia.
    - apply Z.mul_le_mono_nonneg_r; [apply Z.pow_nonneg; lia|exact Hmb]. }
  unfold Z.div in Hq0, Hqk.
  destruct (Z.div_eucl m' (Z.pos mb)) as [q r].
  assert (Hdq : Zdigits2 q <= k) by (apply Zdigits2_le; [lia|unfold k; lia|exact Hqk]).
  destruct (binary_round_aux_no_overflow false q e' (new_location (Z.pos mb) r) 64)
    as [Hz|(m1 & e1 & H1 & Hb1)]; try lia.
  - now left.
  - right. exists m1, e1. split; [exact H1|lia].
Qed.

Lemma SFsub_one_magnitude d :
  zero_or_below 65 d ->
  (exists s, SFsub prec emax SF_one d = S754_zero s)
  \/ (exists s m e, SFsub prec emax SF_one d = S754_finite s m e).
Proof.
  intros [->|(md & ed & -> & Hd)].
  - right. now exists false, 4503599627370496%positive, (-52).
  - unfold SF_one. cbn [SFsub cond_Zopp].
    set (ez := Z.min (-52) ed).
    rewrite !shl_align_value by (unfold ez; lia).
    assert (Hpow : 4503599627370496 * 2 ^ (-52 - ez) = 2 ^ (- ez)).
    { replace 4503599627370496 with (2 ^ 52) by reflexivity.
      rewrite <- Z.pow_add_r by (unfold ez; lia). f_equal. lia. }
    rewrite Hpow.
    pose proof (digits2_pos_bounds md) as [_ Hmd].
    set (dmd := Z.pos (digits2_pos md)) in *.
    assert (H2 : 0 < 2 ^ (ed - ez)) by (apply Z.pow_pos_nonneg; unfold ez; lia).
    assert (H3 : 0 < 2 ^ (- ez)) by (apply Z.pow_pos_nonneg; unfold ez; lia).
    assert (Hy : 0 < Z.pos md * 2 ^ (ed - ez) < 2 ^ (dmd + ed - ez)).
    { split; [lia|]. replace (dmd + ed - ez) with (dmd + (ed - ez)) by lia.
      rewrite Z.pow_add_r by (unfold dmd, ez; lia).
      apply Z.mul_lt_mono_pos_r; lia. }
    destruct (2 ^ (- ez) - Z.pos md * 2 ^ (ed - ez)) as [|q|q] eqn:HM;
      cbn [binary_normalize].
    + left. now exists false.
    + unfold binary_round.
      destruct (shl_align_fexp_spec q ez) as (mz & ez' & -> & Hez & Hdz & _).
      assert (Hdq : Zdigits2 (Z.pos q) <= - ez)
        by (apply Zdigits2_le; unfold ez in *; lia).
      cbn [Zdigits2] in Hdq.
      destruct (binary_round_aux_no_overflow false (Z.pos mz) ez' loc_Exact 65)
        as [Hz|(m1 & e1 & H1 & _)]; cbn [Zdigits2]; unfold ez in *; try lia.
      * left. now exists false.
      * right. now exists false, m1, e1.
    + unfold binary_round.
      destruct (shl_align_fexp_spec q ez) as (mz & ez' & -> & Hez & Hdz & _).
      assert (Hdq : Zdigits2 (Z.pos q) <= dmd + ed - ez)
        by (apply Zdigits2_le; unfold ez, dmd in *; lia).
      cbn [Zdigits2] in Hdq.
      destruct (binary_round_aux_no_overflow true (Z.pos mz) ez' loc_Exact 65)
        as [Hz|(m1 & e1 & H1 & _)]; cbn [Zdigits2]; unfold ez, dmd in *; try lia.
      * left. now exists true.
      * right. now exists true, m1, e1.
Qed.

Lemma Prim2SF_infinity : Prim2SF infinity = S754_infinity false.
Proof. reflexivity. Qed.

Lemma SFeqb_refl_finite s m e : SFeqb (S754_finite s m e) (S754_finite s m e) = true.
Proof.
  unfold SFeqb, SFcompare. rewrite Z.compare_refl, Pos.compare_cont_spec, Pos.compare_refl.
  now destruct s.
Qed.

Lemma is_finite_of_shape x :
  (exists s, Prim2SF x = S754_zero s) \/ (exists s m e, Prim2SF x = S754_finite s m e) ->
  is_finite x = true.
Proof.
  intros H. unfold is_finite, is_nan, is_infinity.
  rewrite !eqb_spec, abs_spec, Prim2SF_infinity.
  destruct H as [(s & ->)|(s & m & e & ->)].
  - reflexivity.
  - rewrite SFeqb_refl_finite. reflexivity.
Qed.

(** The PSD of a positive long charge and a non-negative short charge, both
    below [2^63], is a finite number. *)
Lemma psd_value_finite (ql qs : Z) :
  0 < ql < 2 ^ 63 -> 0 <= qs < 2 ^ 63 -> is_finite (psd_value ql qs) = true.
Proof.
  intros Hql Hqs. apply is_finite_of_shape. unfold psd_value.
  rewrite sub_spec, div_spec, Prim2SF_one. unfold SF64sub, SF64div.
  apply SFsub_one_magnitude.
  pose proof (of_int_positive ql Hql) as Hb.
  destruct (Z.eq_dec qs 0) as [->|Hne].
  - rewrite of_int_zero. destruct Hb as (mb & eb & -> & _). now left.
  - apply SFdiv_magnitude; [apply of_int_positive; lia|exact Hb].
Qed.

(** With no short charge the PSD is exactly one. *)
Lemma psd_value_zero_short (ql : Z) :
  0 < ql < 2 ^ 63 -> psd_value ql 0 = 1%float.
Proof.
  intros Hql. apply Prim2SF_inj. unfold psd_value.
  rewrite sub_spec, div_spec, Prim2SF_one, of_int_zero. unfold SF64sub, SF64div.
  destruct (of_int_positive ql Hql) as (mb & eb & -> & _). reflexivity.
Qed.

Local Close Scope Z_scope.

Lemma charges_in_range (r : record) :
  Forall2 in_range record_codes r ->
  (- 2 ^ 31 <= qLong_of r < 2 ^ 31)%Z /\ (- 2 ^ 31 <= qShort_of r < 2 ^ 31)%Z.
Proof.
  intros Hr. unfold record_codes in Hr.
  repeat match goal with
         | H : Forall2 _ (_ :: _) _ |- _ => inversion H; subst; clear H
         | H : Forall2 _ [] _ |- _ => inversion H; subst; clear H
         end.
  unfold qLong_of, qShort_of. cbn [nth].
  repeat match goal with H : in_range _ _ |- _ => unfold in_range in H; cbn in H end.
  lia.
Qed.

Lemma parse_bin_file_in_range (file : list byte) :
  exists records,
    parse_bin_file file = Returns records
    /\ Forall (Forall2 in_range record_codes) records.
Proof.
  destruct (parse_bin_file_chunked file) as (chunks & tail & _ & Hall & _ & Hparse).
  exists (map (Struct.unpack_codes record_codes) chunks).
  split; [exact Hparse|].
  apply Forall_forall. intros r Hin. apply in_map_iff in Hin as (c & <- & Hc).
  rewrite Forall_forall in Hall. apply unpack_codes_in_range. now apply Hall.
Qed.

Lemma participates_decoded (r : record) :
  Forall2 in_range record_codes r -> participates r = positive_charges r.
Proof.
  intros Hr. apply charges_in_range in Hr as [Hl Hs].
  unfold participates. destruct (positive_charges r) eqn:Hp; [|reflexivity].
  unfold positive_charges in Hp. apply andb_true_iff in Hp as [H1 H2].
  apply Z.gtb_gt in H1. apply Z.geb_ge in H2.
  cbn [andb]. unfold psd_of. apply psd_value_finite; lia.
Qed.

(** X17: for a positive qLong and a non-negative qShort, both below 2^63,
    the binary64 value of 1 - qShort/qLong is finite and at most 1. *)
Theorem psd_of_positive_charges_is_finite (ql qs : Z) :
  (0 < ql < 2 ^ 63)%Z -> (0 <= qs < 2 ^ 63)%Z ->
  is_finite (psd_value ql qs) = true /\ (psd_value ql qs <=? 1)%float = true.
Proof.
  intros Hql Hqs. pose proof (psd_value_finite ql qs Hql Hqs) as Hfin.
  split; [exact Hfin|]. apply psd_le_one; [lia|lia|exact Hfin].
Qed.

Lemma psd_of_positive_charges_is_finite_witness :
  is_finite (psd_value 1 2147483647) = true
  /\ (psd_value 1 2147483647 <=? 1)%float = true.
Proof.
  apply (psd_of_positive_charges_is_finite 1 2147483647); lia.
Defined.

(** X18: on the load path the [isfinite] mask never removes anything: for
    the records of any file, the events that reach the threshold filter are
    exactly those with qLong > 0 and qShort >= 0. *)
Theorem isfinite_mask_keeps_every_loaded_event (self : PSDApp) (file : list byte) :
  exists records s',
    parse_bin_file file = Returns records
    /\ load_file self file = Returns s'
    /\ Forall (fun r => participates r = positive_charges r) records
    /\ valid_stage (qlong s') (qshort s') = (compute_psd (qlong s') (qshort s'), qlong s')
    /\ events (valid_stage (qlong s') (qshort s')) =
       map (fun r => (qLong_of r, psd_of r)) (filter positive_charges records).
Proof.
  destruct (parse_bin_file_in_range file) as (records & Hparse & Hrange).
  destruct (load_file_returns self file) as (records' & Hparse' & _ & _ & Hload).
  rewrite Hparse in Hparse'. apply Returns_inj in Hparse'. subst records'.
  pose proof (update_plots_returns (loaded self records)) as Hup.
  rewrite <- Hload in Hup. exists records. eexists.
  split; [exact Hparse|]. split; [exact Hup|]. rewrite Hload in Hup.
  pose proof (update_plots_keeps _ _ Hup) as (_ & Hl & Hs & _ & _).
  assert (Hagree : Forall (fun r => participates r = positive_charges r) records).
  { apply Forall_forall. intros r Hr. rewrite Forall_forall in Hrange.
    now apply participates_decoded, Hrange. }
  assert (Hfilter : filter participates records = filter positive_charges records).
  { apply filter_ext_in. intros r Hr. rewrite Forall_forall in Hagree. now apply Hagree. }
  split; [exact Hagree|].
  rewrite Hl, Hs, valid_stage_loaded, Hfilter. cbn [loaded qlong qshort].
  split.
  - now rewrite compute_psd_map.
  - unfold events. cbn [fst snd]. apply combine_map_map.
Qed.

(** X19: an event with qShort = 0 has a PSD of exactly 1, and passes the
    filter at every threshold below 1. *)
Theorem zero_short_charge_gives_psd_one (ql : Z) (t : float) :
  (0 < ql < 2 ^ 63)%Z ->
  psd_value ql 0 = 1%float
  /\ ((t <? 1)%float = true ->
      threshold_stage true t [psd_value ql 0] [ql] = ([1%float], [ql])).
Proof.
  intros Hql. rewrite (psd_value_zero_short ql Hql). split; [reflexivity|].
  intros Ht. unfold threshold_stage, Np.greater. cbn [map Np.select]. now rewrite Ht.
Qed.

Lemma zero_short_charge_gives_psd_one_witness :
  psd_value 1000 0 = 1%float.
Proof.
  apply (zero_short_charge_gives_psd_one 1000 0.5%float). lia.
Defined.

Lemma select_length_eq {A B} (mask : list bool) (a : list A) (b : list B) :
  length a = length b -> length (Np.select mask a) = length (Np.select mask b).
Proof.
  revert a b. induction mask as [|m mask IH]; intros [|x a] [|y b] Hlen;
    try discriminate; try reflexivity.
  cbn [Np.select]. cbn [length] in Hlen.
  destruct m; cbn [length]; rewrite (IH a b) by lia; reflexivity.
Qed.

Lemma filtered_parallel (self : PSDApp) :
  length (qlong self) = length (qshort self) ->
  length (fst (filtered self)) = length (snd (filtered self)).
Proof.
  intros Hlen. unfold filtered, valid_stage, threshold_stage.
  set (psd := compute_psd (qlong self) (qshort self)).
  assert (Hpsd : length psd = length (qlong self)).
  { unfold psd, compute_psd, Np.rsub, Np.true_divide.
    rewrite length_map, map2_length. lia. }
  pose proof (select_length_eq (Np.isfinite psd) psd (qlong self) Hpsd) as Hv.
  destruct (filter_toggle self); cbn [fst snd]; [|exact Hv].
  now apply select_length_eq.
Qed.

(** X20: after a recompute on arrays of one length, the PSD table is empty
    exactly when the spectrum table is, namely when no event passed the
    filter. *)
Theorem tables_are_empty_together (self s' : PSDApp) :
  length (qlong self) = length (qshort self) -> qlong self <> [] ->
  update_plots self = Returns s' ->
  (last_psd_data s' = [] <-> last_spectrum_data s' = ([], []))
  /\ (last_psd_data s' = [] <-> fst (filtered self) = []).
Proof.
  intros Hlen Hne Hup. rewrite (update_plots_data self Hne) in Hup.
  apply Returns_inj in Hup. subst s'.
  pose proof (filtered_parallel self Hlen) as Hpar.
  unfold recomputed. cbn [last_spectrum_data last_psd_data].
  unfold psd_stage, spectrum_table.
  destruct (fst (filtered self)) as [|p ps], (snd (filtered self)) as [|q qs];
    try discriminate Hpar; cbn [length Nat.ltb Nat.leb].
  - split; split; reflexivity.
  - split; split; intros H; discriminate H.
Qed.

Lemma tables_are_empty_together_witness :
  last_psd_data sample_recomputed = [] <-> last_spectrum_data sample_recomputed = ([], []).
Proof.
  refine (proj1 (tables_are_empty_together (loaded init [sample_record])
                   sample_recomputed _ _ _)).
  - reflexivity.
  - discriminate.
  - apply update_plots_data. discriminate.
Defined.

Lemma all_filtered_resets_tables_witness :
  exists s',
    update_plots (loaded (with_filter init true 0x1.999999999999ap-1%float) [sample_record])
    = Returns s'
    /\ last_spectrum_data s' = ([], []) /\ last_psd_data s' = [].
Proof.
  apply (all_filtered_resets_tables
           (loaded (with_filter init true 0x1.999999999999ap-1%float) [sample_record])).
  - discriminate.
  - vm_compute. reflexivity.
Defined.
